(** * msmp-py: the MSMP JSON-RPC client of [plugins/msmp_plugin.py]

    A shallow embedding of [MSMPClient] (request correlation, notification
    dispatch, connection lifecycle) and of [_extract_names], followed by the
    properties the specification states about them.

    The client is an object shared by coroutines of one asyncio event loop.
    Its fields are a record; the objects it refers to (sockets, futures,
    tasks) live in stores indexed by position, so that the table [_pending]
    and a caller waiting in [wait_for] share one future.  Each function below
    is the code a coroutine runs between two suspension points ([await]); an
    execution is a list of such steps, in the order the loop schedules them.
    A step that is not enabled (a caller queuing for the held lock, say)
    leaves the world as it is. *)

From stdpp Require Import gmap strings list fin_maps sorting pretty.

Open Scope string_scope.
Open Scope list_scope.
Open Scope Z_scope.

(** ** JSON values, as [json.loads] produces them

    Python's [None], [bool], [int], [str], [list] and [dict].  Numbers are
    integers here (a JSON float has no counterpart in this model).  A [dict]
    is an association list in insertion order; [json.loads] yields string
    keys only. *)

#[warnings="-register-all"]
Inductive json : Type :=
| JNull
| JBool (b : bool)
| JNum (n : Z)
| JStr (s : string)
| JList (l : list json)
| JDict (d : list (string * json)).

Module PyDict.

(** [d.get(k)] / [d[k]]: the value stored under [k], if any. *)
Fixpoint get (k : string) (d : list (string * json)) : option json :=
  match d with
  | [] => None
  | (k', v) :: d' => if decide (k = k') then Some v else get k d'
  end.

(** [k in d] *)
Definition mem (k : string) (d : list (string * json)) : bool :=
  match get k d with Some _ => true | None => false end.

(** [d[k] = v]: overwrite in place, or append a new key at the end. *)
Fixpoint set (k : string) (v : json) (d : list (string * json))
  : list (string * json) :=
  match d with
  | [] => [(k, v)]
  | (k', v') :: d' =>
      if decide (k = k') then (k, v) :: d' else (k', v') :: set k v d'
  end.

End PyDict.

(** Python truthiness, as used by [if n:]. *)
Definition truthy (v : json) : bool :=
  match v with
  | JNull => false
  | JBool b => b
  | JNum n => negb (Z.eqb n 0)
  | JStr s => negb (String.eqb s "")
  | JList l => match l with [] => false | _ => true end
  | JDict d => match d with [] => false | _ => true end
  end.

(** [sub in s] on two Python strings. *)
Fixpoint str_contains (sub s : string) : bool :=
  String.prefix sub s
  || match s with
     | EmptyString => false
     | String _ s' => str_contains sub s'
     end.

(** ** [_extract_names]

    Each [for] loop is a left fold threading the list [names]; [append] adds
    at the end. *)

Definition _extract_names (params : json) : list json :=
  let names : list json := [] in
  let names :=
    match params with
    | JDict d =>
        let names :=
          match PyDict.get "player" d with
          | Some (JDict player) =>
              (* n = params["player"].get("name"); if n: names.append(n) *)
              match PyDict.get "name" player with
              | Some n => if truthy n then names ++ [n] else names
              | None => names
              end
          | _ => names
          end in
        match PyDict.get "players" d with
        | Some (JList players) =>
            foldl (fun names p =>
                     match p with
                     | JDict pd =>
                         match PyDict.get "name" pd with
                         | Some n => names ++ [n]
                         | None => names
                         end
                     | _ => names
                     end) names players
        | _ => names
        end
    | JList ps =>
        foldl (fun names p =>
                 match p with
                 | JDict pd =>
                     match PyDict.get "name" pd with
                     | Some n => names ++ [n]
                     | None =>
                         match PyDict.get "player" pd with
                         | Some (JDict player) =>
                             match PyDict.get "name" player with
                             | Some n => names ++ [n]
                             | None => names
                             end
                         | _ => names
                         end
                     end
                 | _ => names
                 end) names ps
    | JStr _ => names ++ [params]
    | _ => names
    end in
  (* return names or ["Unknown"] *)
  match names with
  | [] => [JStr "Unknown"]
  | _ => names
  end.

(** ** Exceptions and futures *)

Inductive exn : Type :=
| RuntimeError (arg : json)                       (* RuntimeError(msg["error"]) *)
| ConnectionClosed (code : Z) (reason : string)   (* raised by the websocket *)
| TimeoutError                                    (* raised by asyncio.wait_for *)
| CancelledError
| TypeError
| AttributeError
| KeyError
| JSONDecodeError
| AssertionError.

(** An [asyncio.Future]. *)
Inductive future : Type :=
| Pending
| Result (v : json)
| Exception (e : exn)
| Cancelled.

Definition done (f : future) : bool :=
  match f with Pending => false | _ => true end.

(** ** The client object and the event loop around it *)

(** Notification handlers: the two the plugin registers, and any other
    coroutine function. *)
Inductive handler : Type :=
| _on_join
| _on_left
| Callback (n : nat).

(** Fields of [MSMPClient] ([uri], [secret] and [sslctx] are constants of the
    configuration and are not modelled).  [ws] and the values of [_pending]
    are references into the stores of [world] below. *)
Record MSMPClient : Type := Client {
  ws : option nat;
  _rid : Z;
  _lock : bool;                           (* asyncio.Lock: locked? *)
  _pending : gmap Z nat;
  _subs : gmap string (list handler);
  _running : bool;
  _reader_task : option nat;
}.

(** [MSMPClient.__init__] *)
Definition __init__ : MSMPClient :=
  {| ws := None; _rid := 0; _lock := false; _pending := ∅; _subs := ∅;
     _running := false; _reader_task := None |}.

(** Control point of a [_run] task. *)
Inductive phase : Type :=
| LoopTop                (* about to test [while self._running] *)
| Connecting             (* inside [connect(...)] *)
| Receiving (s : nat)    (* inside [_recv_loop(ws)], iterating socket [s] *)
| Exited.

(** Tasks made by [asyncio.create_task]. *)
Inductive task : Type :=
| TRun (ph : phase)                          (* self._run() *)
| THandler (cb : handler) (params : json).   (* cb(params) *)

(** Activation of one [call(method, params, timeout)]. *)
Inductive call_state : Type :=
| Queued (method : string) (params : json)
    (* past [_wait_ready], before [async with self._lock] *)
| Sending (rid : Z) (fut : nat) (req : json) (s : nat)
    (* inside [async with self._lock], at [await self.ws.send(...)] *)
| Waiting (fut : nat)      (* at [await asyncio.wait_for(fut, timeout)] *)
| Returned (v : json)
| Raised (e : exn).

Record world : Type := World {
  self : MSMPClient;
  socks : list bool;             (* websocket objects: their [closed] flag *)
  futs : list future;            (* futures made by [create_future] *)
  tasks : list task;             (* tasks of the event loop, oldest first *)
  calls : list call_state;       (* activations of [call], oldest first *)
  wire : list (nat * json);      (* frames written by [ws.send]: socket, request *)
}.

Definition boot : world :=
  {| self := __init__; socks := []; futs := []; tasks := []; calls := []; wire := [] |}.

Definition set_ws v (c : MSMPClient) : MSMPClient :=
  Client v (_rid c) (_lock c) (_pending c) (_subs c) (_running c) (_reader_task c).
Definition set_rid v (c : MSMPClient) : MSMPClient :=
  Client (ws c) v (_lock c) (_pending c) (_subs c) (_running c) (_reader_task c).
Definition set_lock v (c : MSMPClient) : MSMPClient :=
  Client (ws c) (_rid c) v (_pending c) (_subs c) (_running c) (_reader_task c).
Definition set_pending v (c : MSMPClient) : MSMPClient :=
  Client (ws c) (_rid c) (_lock c) v (_subs c) (_running c) (_reader_task c).
Definition set_subs v (c : MSMPClient) : MSMPClient :=
  Client (ws c) (_rid c) (_lock c) (_pending c) v (_running c) (_reader_task c).
Definition set_running v (c : MSMPClient) : MSMPClient :=
  Client (ws c) (_rid c) (_lock c) (_pending c) (_subs c) v (_reader_task c).
Definition set_reader_task v (c : MSMPClient) : MSMPClient :=
  Client (ws c) (_rid c) (_lock c) (_pending c) (_subs c) (_running c) v.

Definition with_self (f : MSMPClient -> MSMPClient) (w : world) : world :=
  World (f (self w)) (socks w) (futs w) (tasks w) (calls w) (wire w).
Definition set_socks v (w : world) : world :=
  World (self w) v (futs w) (tasks w) (calls w) (wire w).
Definition set_futs v (w : world) : world :=
  World (self w) (socks w) v (tasks w) (calls w) (wire w).
Definition set_tasks v (w : world) : world :=
  World (self w) (socks w) (futs w) v (calls w) (wire w).
Definition set_calls v (w : world) : world :=
  World (self w) (socks w) (futs w) (tasks w) v (wire w).
Definition set_wire v (w : world) : world :=
  World (self w) (socks w) (futs w) (tasks w) (calls w) v.

(** [asyncio.create_task(co)]: the new task goes to the end of the list. *)
Definition create_task (co : task) (w : world) : world :=
  set_tasks (tasks w ++ [co]) w.

(** [ws.close()] and any other way the socket ends. *)
Definition close_sock (s : nat) (w : world) : world :=
  set_socks (<[s := true]> (socks w)) w.

Definition is_open (s : nat) (w : world) : bool :=
  match socks w !! s with Some false => true | _ => false end.

(** ** Public API *)

Definition start (w : world) : world :=
  if _running (self w) then w
  else
    let t := length (tasks w) in
    with_self (set_reader_task (Some t))
      (create_task (TRun LoopTop) (with_self (set_running true) w)).

(** [stop]: the two awaits ([ws.close()], the reader task) complete through
    later steps of the socket and of the [_run] task. *)
Definition stop (w : world) : world :=
  let w := with_self (set_running false) w in
  match ws (self w) with
  | Some s => close_sock s w
  | None => w
  end.

(** [self._subs.setdefault(notif_method, []).append(handler)] *)
Definition on (notif_method : string) (h : handler) (w : world) : world :=
  with_self (fun c =>
    set_subs (<[notif_method := default [] (_subs c !! notif_method) ++ [h]]> (_subs c)) c) w.

(** ** [call]

    The request object built inside the critical section.  Python's [None]
    is [JNull], so [params is not None] is [params ≠ JNull]. *)
Definition make_request (rid : Z) (method : string) (params : json) : json :=
  let req := [("jsonrpc", JStr "2.0"); ("id", JNum rid); ("method", JStr method)] in
  let req :=
    match params with
    | JNull => req
    | _ => PyDict.set "params" params req      (* req["params"] = params *)
    end in
  JDict req.

(** [_wait_ready] returns as soon as [self.ws and not self.ws.closed]. *)
Definition _wait_ready (w : world) : bool :=
  match ws (self w) with
  | Some s => is_open s w
  | None => false
  end.

(** A new [call(method, params)] gets past [await self._wait_ready()]; until
    the socket is up the caller keeps polling and the world is unchanged. *)
Definition call_ready (method : string) (params : json) (w : world) : world :=
  if _wait_ready w then set_calls (calls w ++ [Queued method params]) w else w.

(** Activation [c] takes the free lock and runs up to
    [await self.ws.send(...)]; while the lock is held it stays queued.
    ([self.ws] cannot be [None] once [_wait_ready] has returned; were it so,
    [self.ws.send] would raise [AttributeError] out of the [async with].) *)
Definition call_enter (c : nat) (w : world) : world :=
  match calls w !! c, _lock (self w) with
  | Some (Queued method params), false =>
      let rid := _rid (self w) + 1 in                     (* self._rid += 1 *)
      let fut := length (futs w) in                        (* create_future() *)
      let req := make_request rid method params in
      let w := set_futs (futs w ++ [Pending]) w in
      let w := with_self (fun c =>
                 set_pending (<[rid := fut]> (_pending c))    (* self._pending[rid] = fut *)
                   (set_rid rid c)) w in
      match ws (self w) with
      | Some s =>
          set_calls (<[c := Sending rid fut req s]> (calls w))
            (with_self (set_lock true) w)
      | None => set_calls (<[c := Raised AttributeError]> (calls w)) w
      end
  | _, _ => w
  end.

(** [ws.send] returns: the frame is on the wire, the lock is released and the
    caller goes on to [wait_for]. *)
Definition send_done (c : nat) (w : world) : world :=
  match calls w !! c with
  | Some (Sending rid fut req s) =>
      if is_open s w then
        let w := set_wire (wire w ++ [(s, req)]) w in
        let w := with_self (set_lock false) w in
        set_calls (<[c := Waiting fut]> (calls w)) w
      else w
  | _ => w
  end.

(** [ws.send] raises [ConnectionClosed] on a closed socket, with the close
    code and reason of that socket: the exception leaves the [async with]
    (releasing the lock) and [call]. *)
Definition send_fail (c : nat) (code : Z) (reason : string) (w : world) : world :=
  match calls w !! c with
  | Some (Sending rid fut req s) =>
      if is_open s w then w
      else
        let w := with_self (set_lock false) w in
        set_calls (<[c := Raised (ConnectionClosed code reason)]> (calls w)) w
  | _ => w
  end.

(** [asyncio.wait_for(fut, timeout)], the future being done: its result is
    returned, its exception raised. *)
Definition resume (c : nat) (w : world) : world :=
  match calls w !! c with
  | Some (Waiting fut) =>
      match futs w !! fut with
      | Some (Result v) => set_calls (<[c := Returned v]> (calls w)) w
      | Some (Exception e) => set_calls (<[c := Raised e]> (calls w)) w
      | Some Cancelled => set_calls (<[c := Raised CancelledError]> (calls w)) w
      | _ => w
      end
  | _ => w
  end.

(** [asyncio.wait_for(fut, timeout)], the timeout expiring first: the future
    is cancelled and [TimeoutError] raised.  Nothing else is touched. *)
Definition timeout (c : nat) (w : world) : world :=
  match calls w !! c with
  | Some (Waiting fut) =>
      match futs w !! fut with
      | Some Pending =>
          let w := set_futs (<[fut := Cancelled]> (futs w)) w in
          set_calls (<[c := Raised TimeoutError]> (calls w)) w
      | _ => w
      end
  | _ => w
  end.

(** ** [_recv_loop] *)

(** Body outcomes: the loop goes on, or an exception leaves the [try]. *)
Inductive outcome : Type :=
| Ok (w : world)
| Raise (e : exn) (w : world).

(** [v == k] for a string [k]: only an equal string compares equal. *)
Definition eq_str (k : string) (v : json) : bool :=
  match v with JStr s => bool_decide (s = k) | _ => false end.

(** ["id" in msg] for whatever [json.loads] returned. *)
Definition has_id (msg : json) : exn + bool :=
  match msg with
  | JDict d => inr (PyDict.mem "id" d)
  | JList l => inr (existsb (eq_str "id") l)
  | JStr s => inr (str_contains "id" s)
  | _ => inl TypeError                      (* not iterable *)
  end.

(** Looking a value up in a table with [int] keys, the table having entries:
    the value is hashed (lists and dicts are unhashable) and found under the
    integer it is equal to ([True == 1]), if any. *)
Definition int_key (v : json) : exn + option Z :=
  match v with
  | JNum n => inr (Some n)
  | JBool b => inr (Some (if b then 1 else 0))
  | JNull | JStr _ => inr None
  | JList _ | JDict _ => inl TypeError
  end.

(** [self._subs.get(meth, [])] *)
Definition subs_get (meth : json) (subs : gmap string (list handler))
  : exn + list handler :=
  match meth with
  | JStr m => inr (default [] (subs !! m))
  | JList _ | JDict _ => inl TypeError
  | _ => inr []
  end.

Definition set_future (fut : nat) (f : future) (w : world) : world :=
  set_futs (<[fut := f]> (futs w)) w.

(** One iteration of [async for raw in ws], [msg] being [json.loads(raw)]. *)
Definition handle_message (msg : json) (w : world) : outcome :=
  match has_id msg with
  | inl e => Raise e w
  | inr true =>
      match msg with
      | JDict d =>
          match PyDict.get "id" d with
          | None => Raise KeyError w
          | Some id =>
              (* fut = self._pending.pop(msg["id"], None): on an empty dict
                 [pop] returns the default before it hashes the key *)
              if decide (_pending (self w) = ∅) then Ok w else
              match int_key id with
              | inl e => Raise e w
              | inr k =>
                  let fut := k ≫= (fun rid => _pending (self w) !! rid) in
                  let w :=
                    match k with
                    | Some rid => with_self (fun c => set_pending (delete rid (_pending c)) c) w
                    | None => w
                    end in
                  match fut with
                  | Some fut =>
                      match futs w !! fut with
                      | Some Pending =>                 (* fut and not fut.done() *)
                          match PyDict.get "error" d with
                          | Some err => Ok (set_future fut (Exception (RuntimeError err)) w)
                          | None =>
                              Ok (set_future fut (Result (default JNull (PyDict.get "result" d))) w)
                          end
                      | _ => Ok w
                      end
                  | None => Ok w
                  end
              end
          end
      | _ => Raise TypeError w                (* msg["id"] on a list or str *)
      end
  | inr false =>
      match msg with
      | JDict d =>
          let meth := default (JStr "") (PyDict.get "method" d) in
          let params := default (JDict []) (PyDict.get "params" d) in
          match subs_get meth (_subs (self w)) with
          | inl e => Raise e w
          | inr cbs =>
              Ok (foldl (fun w cb => create_task (THandler cb params) w) w cbs)
          end
      | _ => Raise AttributeError w           (* no [get] on a list or str *)
      end
  end.

(** The [finally] block.

    [fut.set_exception(ConnectionClosed(1006, "reconnecting"))] evaluates its
    argument first.  The class of [websockets.exceptions] is made from two
    close frames and a flag, [ConnectionClosed(rcvd, sent,
    rcvd_then_sent=None)], and its [__init__] (websockets 13 and later)
    asserts [(rcvd_then_sent is None) == (rcvd is None or sent is None)]:
    called with [1006] and ["reconnecting"] it raises [AssertionError], and
    [set_exception] is not reached.  So the loop goes past the futures that
    are done and stops, by that exception, at the first one that is not. *)
Definition fail_future (w : world) (fut : nat) : outcome :=
  match futs w !! fut with
  | Some Pending => Raise AssertionError w          (* not fut.done() *)
  | _ => Ok w
  end.

(** [for fut in self._pending.values(): ...] *)
Fixpoint fail_futures (locs : list nat) (w : world) : outcome :=
  match locs with
  | [] => Ok w
  | fut :: locs' =>
      match fail_future w fut with
      | Ok w => fail_futures locs' w
      | Raise e w => Raise e w
      end
  end.

Definition recv_finally (w : world) : outcome :=
  match fail_futures ((map_to_list (_pending (self w))).*2) w with
  | Ok w => Ok (with_self (set_pending ∅) w)     (* self._pending.clear() *)
  | Raise e w => Raise e w
  end.

(** ** [_run] and the socket *)

Definition set_task (t : nat) (co : task) (w : world) : world :=
  set_tasks (<[t := co]> (tasks w)) w.

(** [while self._running:] *)
Definition loop_test (t : nat) (w : world) : world :=
  match tasks w !! t with
  | Some (TRun LoopTop) =>
      set_task t (TRun (if _running (self w) then Connecting else Exited)) w
  | _ => w
  end.

(** [connect(...)] succeeds: [self.ws = ws], then [_recv_loop(ws)]. *)
Definition connected (t : nat) (w : world) : world :=
  match tasks w !! t with
  | Some (TRun Connecting) =>
      let s := length (socks w) in
      let w := set_socks (socks w ++ [false]) w in
      let w := with_self (set_ws (Some s)) w in
      set_task t (TRun (Receiving s)) w
  | _ => w
  end.

(** [connect(...)] raises: [except Exception: await asyncio.sleep(3.0)]. *)
Definition connect_failed (t : nat) (w : world) : world :=
  match tasks w !! t with
  | Some (TRun Connecting) => set_task t (TRun LoopTop) w
  | _ => w
  end.

(** The state an iteration of the receive loop, or the [finally] block,
    ends in. *)
Definition world_of (o : outcome) : world :=
  match o with Ok w | Raise _ w => w end.

(** An exception other than [ConnectionClosed] leaves [_recv_loop] through
    [finally], where [AssertionError] may take its place; either leaves the
    [async with] (closing the socket) and is caught by [except Exception] in
    [_run], which sleeps and loops. *)
Definition recv_abort (t s : nat) (w : world) : world :=
  set_task t (TRun LoopTop) (close_sock s (world_of (recv_finally w))).

Definition recv (t : nat) (msg : json) (w : world) : world :=
  match tasks w !! t with
  | Some (TRun (Receiving s)) =>
      match handle_message msg w with
      | Ok w => w
      | Raise _ w => recv_abort t s w
      end
  | _ => w
  end.

(** [json.loads(raw)] raises on a frame that is not JSON. *)
Definition recv_malformed (t : nat) (w : world) : world :=
  match tasks w !! t with
  | Some (TRun (Receiving s)) => recv_abort t s w
  | _ => w
  end.

(** The iteration over a closed socket ends, normally or by
    [ConnectionClosed] (swallowed), and [finally] runs.  [_run] then loops:
    at once when [_recv_loop] returns, through [except Exception] and the
    sleep when [finally] raised. *)
Definition recv_end (t : nat) (w : world) : world :=
  match tasks w !! t with
  | Some (TRun (Receiving s)) =>
      if is_open s w then w
      else set_task t (TRun LoopTop) (world_of (recv_finally w))
  | _ => w
  end.

(** ** Executions *)

Inductive event : Type :=
| Start
| Stop
| On (m : string) (h : handler)
| Call (method : string) (params : json)   (* a caller gets past [_wait_ready] *)
| Enter (c : nat)                           (* activation [c] gets the lock *)
| SendDone (c : nat)
| SendFail (c : nat) (code : Z) (reason : string)
| Resume (c : nat)
| Timeout (c : nat)
| LoopTest (t : nat)
| Connected (t : nat)
| ConnectFailed (t : nat)
| Recv (t : nat) (msg : json)
| RecvMalformed (t : nat)
| RecvEnd (t : nat)
| Drop (s : nat).                 (* socket [s] closes *)

Definition step (w : world) (ev : event) : world :=
  match ev with
  | Start => start w
  | Stop => stop w
  | On m h => on m h w
  | Call method params => call_ready method params w
  | Enter c => call_enter c w
  | SendDone c => send_done c w
  | SendFail c code reason => send_fail c code reason w
  | Resume c => resume c w
  | Timeout c => timeout c w
  | LoopTest t => loop_test t w
  | Connected t => connected t w
  | ConnectFailed t => connect_failed t w
  | Recv t msg => recv t msg w
  | RecvMalformed t => recv_malformed t w
  | RecvEnd t => recv_end t w
  | Drop s => close_sock s w
  end.

Definition run (w : world) (evs : list event) : world := foldl step w evs.

(** ** Definitions used to state the properties *)

(** The payload [[{"name": n1}, {"name": n2}, ...]]. *)
Definition name_objects (ns : list string) : json :=
  JList ((fun n => JDict [("name", JStr n)]) <$> ns).

(** The key/value pairs of a request object. *)
Definition request_fields (req : json) : list (string * json) :=
  match req with JDict d => d | _ => [] end.

(** Every field of the client but [_pending]. *)
Definition outside_pending (c : MSMPClient) :=
  (ws c, _rid c, _lock c, _subs c, _running c, _reader_task c).

(** Some entry of the table holds a future that is not done: a call is
    waiting for its response. *)
Definition awaited (w : world) : Prop :=
  ∃ rid fut, _pending (self w) !! rid = Some fut ∧ futs w !! fut = Some Pending.

(** The three ways a turn of the receive loop can go. *)
Definition is_recv (ev : event) : Prop :=
  match ev with Recv _ _ | RecvMalformed _ | RecvEnd _ => True | _ => False end.

#[global] Instance is_recv_dec (ev : event) : Decision (is_recv ev).
Proof. destruct ev; simpl; apply _. Defined.

(** Guards on executions: no [stop()], no [on(...)]. *)
Definition is_stop (ev : event) : bool :=
  match ev with Stop => true | _ => false end.

(** Handlers given to [on(m, _)] along an execution, in the order of the
    calls. *)
Definition registered (m : string) (evs : list event) : list handler :=
  omap (fun ev =>
          match ev with
          | On m' h => if decide (m' = m) then Some h else None
          | _ => None
          end) evs.

Definition is_on (ev : event) : bool :=
  match ev with On _ _ => true | _ => false end.

(** The names [_on_join] and [_on_left] announce:
    [for name in _extract_names(params)]. *)
Definition announced_names (co : task) : list json :=
  match co with
  | THandler _on_join params | THandler _on_left params => _extract_names params
  | _ => []
  end.

(** The ["id"] of a request object. *)
Definition request_id (req : json) : option Z :=
  match req with
  | JDict d => match PyDict.get "id" d with Some (JNum n) => Some n | _ => None end
  | _ => None
  end.

(** Ids of the frames on the wire, oldest first. *)
Definition wire_ids (w : world) : list Z :=
  omap (fun fr => request_id fr.2) (wire w).

(** Activation [c] is queued and the lock is free. *)
Definition can_enter (c : nat) (w : world) : bool :=
  match calls w !! c, _lock (self w) with
  | Some (Queued _ _), false => true
  | _, _ => false
  end.

(** Ids assigned by [self._rid += 1; rid = self._rid] along an execution, in
    the order of the assignments. *)
Fixpoint issued (w : world) (evs : list event) : list Z :=
  match evs with
  | [] => []
  | ev :: evs' =>
      match ev with
      | Enter c => if can_enter c w then [_rid (self w) + 1] else []
      | _ => []
      end ++ issued (step w ev) evs'
  end.

(** Steps other than those of [call] leave the counter, the lock, the
    activations and the wire as they are. *)
Definition is_call_step (ev : event) : Prop :=
  match ev with
  | Call _ _ | Enter _ | SendDone _ | SendFail _ _ _ | Resume _ | Timeout _ => True
  | _ => False
  end.

#[global] Instance is_call_step_dec (ev : event) : Decision (is_call_step ev).
Proof. destruct ev; simpl; apply _. Defined.

(** What holds of the wire in every state the client reaches: the ids sent
    are in increasing order and below the counter, and the caller inside the
    critical section, of which there is at most one, holds the latest id,
    above everything sent so far. *)
Record wire_inv (w : world) : Prop := WireInv {
  inv_sorted : StronglySorted Z.lt (wire_ids w);
  inv_all : length (wire_ids w) = length (wire w);
  inv_below : Forall (fun i => i ≤ _rid (self w)) (wire_ids w);
  inv_sending : ∀ c rid fut req s,
    calls w !! c = Some (Sending rid fut req s) →
    _lock (self w) = true ∧ request_id req = Some rid ∧ rid = _rid (self w)
    ∧ Forall (fun i => i < rid) (wire_ids w);
  inv_single : ∀ c c' rid fut req s rid' fut' req' s',
    calls w !! c = Some (Sending rid fut req s) →
    calls w !! c' = Some (Sending rid' fut' req' s') → c = c';
}.

(** ** Further definitions: the client *)

(** [hash(v)] succeeds: lists and dicts are unhashable. *)
Definition hashable (v : json) : bool :=
  match v with JList _ | JDict _ => false | _ => true end.

(** Messages the body of the receive loop gets through without raising, in
    state [w]: a dict whose ["id"], when present, is hashable or meets an
    empty table, and whose ["method"], when there is no ["id"], is
    hashable. *)
Definition acceptable (msg : json) (w : world) : bool :=
  match msg with
  | JDict d =>
      match PyDict.get "id" d with
      | Some id => hashable id || bool_decide (_pending (self w) = ∅)
      | None => hashable (default (JStr "") (PyDict.get "method" d))
      end
  | _ => false
  end.

(** A call that is over. *)
Definition finished (st : call_state) : bool :=
  match st with Returned _ | Raised _ => true | _ => false end.

Definition is_start (ev : event) : bool :=
  match ev with Start => true | _ => false end.

(** What holds of the table in every state the client reaches. *)
Record pending_inv (w : world) : Prop := PendingInv {
  pinv_key : ∀ rid fut, _pending (self w) !! rid = Some fut →
                        0 < rid ≤ _rid (self w);
  pinv_fut : ∀ rid fut, _pending (self w) !! rid = Some fut →
                        (fut < length (futs w))%nat;
  pinv_inj : ∀ rid rid' fut, _pending (self w) !! rid = Some fut →
                             _pending (self w) !! rid' = Some fut → rid = rid';
  pinv_rid : 0 ≤ _rid (self w);
}.

(** The lock is held by somebody. *)
Definition lock_inv (w : world) : Prop :=
  _lock (self w) = true →
  ∃ c rid fut req s, calls w !! c = Some (Sending rid fut req s).

(** Nothing that is settled in [w] is different in [w']: a future that is
    done keeps its state, a call that is over keeps its outcome. *)
Definition settled_stays (w w' : world) : Prop :=
  (∀ fut f, futs w !! fut = Some f → done f = true → futs w' !! fut = Some f)
  ∧ (∀ c st, calls w !! c = Some st → finished st = true → calls w' !! c = Some st).

(** ** The whitelist record and its file

    [USER_WHITELISTS: dict[str, set[str]]] is an insertion-ordered
    association list from user ids to finite sets of names; the file
    [whitelist.json] is what [DATA_FILE] holds. *)

Module ODict.
Section odict.
Context {V : Type}.

(** [d.get(k)] *)
Fixpoint get (k : string) (d : list (string * V)) : option V :=
  match d with
  | [] => None
  | (k', v) :: d' => if decide (k = k') then Some v else get k d'
  end.

(** [d[k] = v] *)
Fixpoint set (k : string) (v : V) (d : list (string * V)) : list (string * V) :=
  match d with
  | [] => [(k, v)]
  | (k', v') :: d' =>
      if decide (k = k') then (k, v) :: d' else (k', v') :: set k v d'
  end.

(** [d.setdefault(k, v)]: the dict afterwards. *)
Definition setdefault (k : string) (v : V) (d : list (string * V)) : list (string * V) :=
  match get k d with
  | Some _ => d
  | None => set k v d
  end.

(** [{k: v for k, v in items}] *)
Definition of_items (items : list (string * V)) : list (string * V) :=
  foldl (fun d kv => set kv.1 kv.2 d) [] items.

End odict.
End ODict.

Definition WHITELIST_LIMIT : nat := 2.

(** Order of [str]: by code point, which on UTF-8 text is by byte. *)
Definition str_le (x y : string) : Prop := String.leb x y = true.

#[global] Instance str_le_dec (x y : string) : Decision (str_le x y).
Proof. unfold str_le. apply _. Defined.

(** [sorted(names)] for a set of strings. *)
Definition sorted (names : gset string) : list string :=
  merge_sort str_le (elements names).

(** [DATA_FILE]: absent, holding text that is not JSON, or holding the text
    of a JSON value, an object being the pairs written, in their order. *)
Inductive file : Type :=
| NoFile
| Garbage
| Json (v : json).

(** [save_whitelist_data]: the file afterwards ([json.dump] writes the text
    of [raw]). *)
Definition save_whitelist_data (USER_WHITELISTS : list (string * gset string)) : file :=
  let raw :=
    ODict.of_items
      ((fun '(uid, names) => (uid, JList (JStr <$> sorted names))) <$> USER_WHITELISTS) in
  Json (JDict raw).

(** What [load_whitelist_data] does: it binds [USER_WHITELISTS] or raises.
    From a file that [save_whitelist_data] wrote the sets hold [str]s, as the
    declared type [dict[str, set[str]]] says.  A file from elsewhere can
    give sets with other members, which [set(names)] takes all the same:
    [LoadedOther] is the record then, each set as the list of its members
    in the order they were met. *)
Inductive loaded : Type :=
| Loaded (USER_WHITELISTS : list (string * gset string))
| LoadedOther (USER_WHITELISTS : list (string * list json))
| LoadRaises (e : exn).

(** [x == y] for hashable JSON values: [None], [str], and [bool] and [int],
    a [bool] being the [int] 0 or 1. *)
Definition py_eq (x y : json) : bool :=
  match x, y with
  | JNull, JNull => true
  | JStr s, JStr s' => bool_decide (s = s')
  | (JBool _ | JNum _), (JBool _ | JNum _) =>
      match int_key x, int_key y with
      | inr (Some a), inr (Some b) => bool_decide (a = b)
      | _, _ => false
      end
  | _, _ => false
  end.

(** [set(names)]: each member is hashed as it is added, a list or dict
    raising [TypeError], and a member equal to an earlier one is left out. *)
Fixpoint py_set (names acc : list json) : exn + list json :=
  match names with
  | [] => inr acc
  | v :: names' =>
      if hashable v
      then py_set names' (if existsb (py_eq v) acc then acc else acc ++ [v])
      else inl TypeError
  end.

(** [{str(uid): set(names) for uid, names in raw.items() if isinstance(names, list)}],
    the keys of a JSON object being [str] already. *)
Fixpoint load_items (items : list (string * json)) (acc : list (string * list json))
  : exn + list (string * list json) :=
  match items with
  | [] => inr acc
  | (uid, JList names) :: items' =>
      match py_set names [] with
      | inr members => load_items items' (ODict.set uid members acc)
      | inl e => inl e
      end
  | _ :: items' => load_items items' acc
  end.

(** A set whose members are all [str]. *)
Fixpoint str_set (names : list json) : option (gset string) :=
  match names with
  | [] => Some ∅
  | JStr s :: names' => (fun rest => {[ s ]} ∪ rest) <$> str_set names'
  | _ :: _ => None
  end.

(** A record all of whose sets hold [str] only. *)
Fixpoint str_sets (R : list (string * list json)) : option (list (string * gset string)) :=
  match R with
  | [] => Some []
  | (uid, names) :: R' =>
      match str_set names, str_sets R' with
      | Some names, Some W => Some ((uid, names) :: W)
      | _, _ => None
      end
  end.

(** [raw = json.load(f)] is the dict of the pairs written in the file: of a
    key written twice it has the first place and the last value. *)
Definition load_whitelist_data (f : file) : loaded :=
  match f with
  | NoFile => Loaded []                         (* not DATA_FILE.is_file() *)
  | Garbage => LoadRaises JSONDecodeError
  | Json (JDict pairs) =>
      let raw := ODict.of_items pairs in
      match load_items raw [] with
      | inl e => LoadRaises e
      | inr R =>
          match str_sets R with
          | Some W => Loaded W
          | None => LoadedOther R
          end
      end
  | Json _ => LoadRaises AttributeError          (* raw.items() *)
  end.

Definition is_list (v : json) : bool :=
  match v with JList _ => true | _ => false end.

(** ** Text: [str.strip()] and [str.split(maxsplit=1)]

    A [str] is the UTF-8 encoding of its characters. *)

(** A byte that continues a multi-byte character. *)
Definition is_cont (a : Ascii.ascii) : bool :=
  let n := Ascii.N_of_ascii a in (128 <=? n)%N && (n <? 192)%N.

Definition starts_cont (c : string) : bool :=
  match c with String b _ => is_cont b | EmptyString => false end.

(** The characters of a string, each as the bytes that encode it. *)
Fixpoint chars (s : string) : list string :=
  match s with
  | EmptyString => []
  | String a r =>
      match chars r with
      | c :: cs => if starts_cont c then String a c :: cs else String a "" :: c :: cs
      | [] => [String a ""]
      end
  end.

(** The code point a character encodes. *)
Definition codepoint (c : string) : N :=
  match c with
  | EmptyString => 0%N
  | String a r =>
      let lead := Ascii.N_of_ascii a in
      let lead :=
        match String.length r with
        | 0%nat => lead
        | 1%nat => (lead mod 32)%N
        | 2%nat => (lead mod 16)%N
        | _ => (lead mod 8)%N
        end in
      foldl (fun acc b => (acc * 64 + Ascii.N_of_ascii b mod 64)%N) lead (String.list_ascii_of_string r)
  end.

(** White space, as [str.isspace] has it. *)
Definition isspace (c : string) : bool :=
  let cp := codepoint c in
  ((9 <=? cp) && (cp <=? 13) || (28 <=? cp) && (cp <=? 32)
   || (cp =? 133) || (cp =? 160) || (cp =? 5760)
   || (8192 <=? cp) && (cp <=? 8202)
   || (cp =? 8232) || (cp =? 8233) || (cp =? 8239) || (cp =? 8287) || (cp =? 12288))%N.

Fixpoint drop_while {A} (p : A → bool) (l : list A) : list A :=
  match l with
  | x :: l' => if p x then drop_while p l' else l
  | [] => []
  end.

Fixpoint take_while {A} (p : A → bool) (l : list A) : list A :=
  match l with
  | x :: l' => if p x then x :: take_while p l' else []
  | [] => []
  end.

Definition strip_chars (cs : list string) : list string :=
  reverse (drop_while isspace (reverse (drop_while isspace cs))).

(** [s.strip()] *)
Definition strip (s : string) : string :=
  String.concat "" (strip_chars (chars s)).

(** [s.split(maxsplit=1)] *)
Definition split1 (s : string) : list string :=
  match drop_while isspace (chars s) with
  | [] => []
  | cs =>
      let word := take_while (fun c => negb (isspace c)) cs in
      let rest := drop_while isspace (drop_while (fun c => negb (isspace c)) cs) in
      match rest with
      | [] => [String.concat "" word]
      | _ => [String.concat "" word; String.concat "" rest]
      end
  end.

(** ** The [/whitelist] command *)

(** The replies of the handler: each constructor stands for one text. *)
Inductive reply : Type :=
| Usage                              (* "用法：/whitelist <玩家名>" *)
| AlreadyApplied (name : string)     (* f"你已经为 {name} 申请过白名单了。" *)
| QuotaUsedUp (limit : nat) (used_list : string)
    (* f"你已经用完白名单名额（{WHITELIST_LIMIT} 个）：{used_list}" *)
| AddFailed (e : exn)                (* f"添加白名单失败：{e}" *)
| Added (name : string).             (* f"已为你添加白名单：{name}" *)

(** The argument of the command, or [None] when the handler answers with the
    usage text. *)
Definition whitelist_args (plaintext : string) : option string :=
  let text := strip plaintext in
  match split1 text with
  | [_; arg] =>                         (* len(parts) >= 2 *)
      let name := strip arg in
      if decide (name = "") then None else Some name
  | _ => None
  end.

(** The handler up to its first suspension: it has finished with a reply, or
    waits for [msmp.call(method, params)]. *)
Inductive next : Type :=
| Finish (r : reply)
| CallServer (name : string) (method : string) (params : json).

Definition whitelist_begin (plaintext : string) (user_id : Z)
    (USER_WHITELISTS : list (string * gset string))
  : list (string * gset string) * next :=
  match whitelist_args plaintext with
  | None => (USER_WHITELISTS, Finish Usage)
  | Some name =>
      let uid := pretty user_id in                                  (* str(event.user_id) *)
      let USER_WHITELISTS := ODict.setdefault uid ∅ USER_WHITELISTS in
      let used := default ∅ (ODict.get uid USER_WHITELISTS) in
      if decide (name ∈ used) then (USER_WHITELISTS, Finish (AlreadyApplied name))
      else if decide (WHITELIST_LIMIT ≤ size used)%nat then
        (USER_WHITELISTS,
         Finish (QuotaUsedUp WHITELIST_LIMIT (String.concat ", " (sorted used))))
      else
        (USER_WHITELISTS,
         CallServer name "minecraft:allowlist/add"
           (JDict [("add", JList [JDict [("name", JStr name)]])]))
  end.

(** [except Exception] catches everything but [CancelledError]. *)
Definition caught (e : exn) : bool :=
  match e with CancelledError => false | _ => true end.

(** How a handler ends: [finish] with a reply, or an exception it lets
    through. *)
Inductive ended : Type :=
| Replied (r : reply)
| Propagated (e : exn).

(** The handler from the return of [msmp.call]: [o] is the exception raised
    or the value returned.  [used] is the set object bound before the call,
    the one the record holds for the user. *)
Definition whitelist_end (name : string) (user_id : Z) (o : exn + json)
    (USER_WHITELISTS : list (string * gset string)) (DATA_FILE : file)
  : list (string * gset string) * file * ended :=
  match o with
  | inl e =>
      (USER_WHITELISTS, DATA_FILE, if caught e then Replied (AddFailed e) else Propagated e)
  | inr _ =>
      let uid := pretty user_id in
      let USER_WHITELISTS :=
        match ODict.get uid USER_WHITELISTS with
        | Some used => ODict.set uid (used ∪ {[ name ]}) USER_WHITELISTS   (* used.add(name) *)
        | None => USER_WHITELISTS
        end in
      (USER_WHITELISTS, save_whitelist_data USER_WHITELISTS, Replied (Added name))
  end.

(** The handler run with nothing else scheduled while it waits. *)
Definition whitelist_handle (plaintext : string) (user_id : Z) (o : exn + json)
    (USER_WHITELISTS : list (string * gset string)) (DATA_FILE : file)
  : list (string * gset string) * file * ended :=
  match whitelist_begin plaintext user_id USER_WHITELISTS with
  | (W, Finish r) => (W, DATA_FILE, Replied r)
  | (W, CallServer name _ _) => whitelist_end name user_id o W DATA_FILE
  end.

(** No user is over quota. *)
Definition within_quota (W : list (string * gset string)) : Prop :=
  ∀ uid used, ODict.get uid W = Some used → (size used ≤ WHITELIST_LIMIT)%nat.

(** A character as [chars] produces it: one byte, then continuation bytes. *)
Definition chunk_ok (c : string) : Prop :=
  match c with
  | String _ r => forallb is_cont (String.list_ascii_of_string r) = true
  | EmptyString => False
  end.

(** A run of characters cut out of [chars s]: every one but the first starts
    with a byte that is not a continuation. *)
Definition chunks_ok (cs : list string) : Prop :=
  match cs with
  | [] => True
  | c :: cs' => chunk_ok c ∧ Forall (fun c => chunk_ok c ∧ starts_cont c = false) cs'
  end.

(** ** The [/players] command *)

(** [[p.get("name") for p in (players or []) if isinstance(p, dict)]]:
    iterating a dict gives its keys and iterating a string its characters,
    none of which is a dict; a number or [True] is not iterable. *)
Definition player_names (players : json) : exn + list json :=
  match (if truthy players then players else JList []) with
  | JList ps =>
      inr (omap (fun p => match p with
                          | JDict d => Some (default JNull (PyDict.get "name" d))
                          | _ => None
                          end) ps)
  | JDict _ | JStr _ => inr []
  | _ => inl TypeError
  end.

(** The [str] members of a list, when all of them are. *)
Fixpoint all_str (items : list json) : option (list string) :=
  match items with
  | [] => Some []
  | JStr s :: items' => (fun l => s :: l) <$> all_str items'
  | _ :: _ => None
  end.

(** [sep.join(items)] *)
Definition str_join (sep : string) (items : list json) : exn + string :=
  match all_str items with
  | Some l => inr (String.concat sep l)
  | None => inl TypeError
  end.

(** How the handler ends: [finish(msg)] with the listing, [finish] with
    [f"查询失败: {e}"], or an exception [except Exception] lets through. *)
Inductive players_ended : Type :=
| Listing (msg : string)
| QueryFailed (e : exn)
| QueryPropagated (e : exn).

(** The handler from the return of [msmp.call("minecraft:players")]. *)
Definition players_handle (o : exn + json) : players_ended :=
  let tried : exn + string :=
    match o with
    | inl e => inl e
    | inr players =>
        match player_names players with
        | inl e => inl e
        | inr names =>
            let head := "在线玩家 (" +:+ pretty (length names) +:+ "): " in
            match names with
            | [] => inr (head +:+ "无")
            | _ =>
                match str_join ", " names with
                | inl e => inl e
                | inr listing => inr (head +:+ listing)
                end
            end
        end
    end in
  match tried with
  | inr msg => Listing msg
  | inl e => if caught e then QueryFailed e else QueryPropagated e
  end.

(** The names of the player objects of a list. *)
Definition named_players (ps : list json) : list string :=
  omap (fun p => match p with
                 | JDict d => match PyDict.get "name" d with Some (JStr s) => Some s | _ => None end
                 | _ => None
                 end) ps.

(** A player object whose ["name"] is missing or is not a string. *)
Definition nameless (p : json) : bool :=
  match p with
  | JDict d => match PyDict.get "name" d with Some (JStr _) => false | _ => true end
  | _ => false
  end.

(** ** Broadcasting to the allowed groups *)

(** [_broadcast_to_allowed(message)]: [bots] is [driver.bots.values()],
    [ALLOWED_GROUPS] the groups in the order the set is iterated, [raises]
    tells whether [bot.send_group_msg(group_id=gid, ...)] raises; the result
    is [sent] followed by the messages that went out. *)
Definition _broadcast_to_allowed {M : Type} (bots : list nat) (ALLOWED_GROUPS : list Z)
    (raises : nat → Z → bool) (message : M) (sent : list (nat * Z * M))
  : list (nat * Z * M) :=
  match ALLOWED_GROUPS with
  | [] => sent                                  (* if not ALLOWED_GROUPS: return *)
  | _ =>
      foldl (fun sent bot =>
               foldl (fun sent gid =>
                        if raises bot gid then sent       (* except Exception: pass *)
                        else sent ++ [(bot, gid, message)])
                     sent ALLOWED_GROUPS)
            sent bots
  end.

(** The texts of [_on_join] and [_on_left]: [f"【RPC】{name} 加入了游戏"],
    [f"【RPC】{name} 离开了游戏"], for the name as it was extracted. *)
Inductive announcement : Type :=
| Joined (name : json)
| Left (name : json).

(** [_on_join(params)] and [_on_left(params)] *)
Definition announce (mk : json → announcement) (bots : list nat) (ALLOWED_GROUPS : list Z)
    (raises : nat → Z → bool) (params : json) (sent : list (nat * Z * announcement))
  : list (nat * Z * announcement) :=
  foldl (fun sent name => _broadcast_to_allowed bots ALLOWED_GROUPS raises (mk name) sent)
        sent (_extract_names params).

(** Every pair of a bot and a group for which sending does not raise, bots
    first. *)
Definition reached (bots : list nat) (groups : list Z) (raises : nat → Z → bool)
  : list (nat * Z) :=
  bot ← bots; gid ← filter (fun gid => raises bot gid = false) groups; [(bot, gid)].

(** * Properties *)

Example extract_single_player :
  _extract_names (JDict [("player", JDict [("name", JStr "Bob")])]) = [JStr "Bob"].
Proof. reflexivity. Qed.

Example extract_nested_list :
  _extract_names (JList [JDict [("player", JDict [("name", JStr "Ann")])]; JNum 3])
  = [JStr "Ann"].
Proof. reflexivity. Qed.

(** ** Name extraction *)

Lemma extract_loop_names (ns : list string) (acc : list json) :
  foldl (fun names p =>
           match p with
           | JDict pd =>
               match PyDict.get "name" pd with
               | Some n => names ++ [n]
               | None =>
                   match PyDict.get "player" pd with
                   | Some (JDict player) =>
                       match PyDict.get "name" player with
                       | Some n => names ++ [n]
                       | None => names
                       end
                   | _ => names
                   end
               end
           | _ => names
           end) acc ((fun n => JDict [("name", JStr n)]) <$> ns)
  = acc ++ (JStr <$> ns).
Proof.
  revert acc. induction ns as [|n ns IH]; intros acc; simpl.
  - by rewrite app_nil_r.
  - rewrite IH. by rewrite <- app_assoc.
Qed.

Lemma extract_name_objects (ns : list string) :
  ns ≠ [] → _extract_names (name_objects ns) = JStr <$> ns.
Proof.
  intros Hne. unfold _extract_names, name_objects.
  rewrite extract_loop_names. simpl.
  destruct ns; [done | reflexivity].
Qed.

Lemma extract_bare_string (s : string) : _extract_names (JStr s) = [JStr s].
Proof. reflexivity. Qed.

Lemma extract_scalar (v : json) :
  match v with JNull | JBool _ | JNum _ => True | _ => False end →
  _extract_names v = [JStr "Unknown"].
Proof. by destruct v. Qed.

(** C6. [_extract_names] on the bare string ["Carol"] gives [["Carol"]] (as on
    any bare string); on the list [[{"name":"Dan"},{"name":"Eve"}]] it gives
    [["Dan","Eve"]] in that order (as on any non-empty list of such objects);
    on an empty dict, an empty list, a number, a boolean or [None] it gives
    [["Unknown"]]. *)
Theorem extract_names_shapes :
  _extract_names (JStr "Carol") = [JStr "Carol"]
  ∧ (∀ s, _extract_names (JStr s) = [JStr s])
  ∧ _extract_names (JList [JDict [("name", JStr "Dan")]; JDict [("name", JStr "Eve")]])
    = [JStr "Dan"; JStr "Eve"]
  ∧ (∀ n ns, _extract_names (name_objects (n :: ns)) = JStr <$> n :: ns)
  ∧ _extract_names (JDict []) = [JStr "Unknown"]
  ∧ _extract_names (JList []) = [JStr "Unknown"]
  ∧ (∀ n, _extract_names (JNum n) = [JStr "Unknown"])
  ∧ (∀ b, _extract_names (JBool b) = [JStr "Unknown"])
  ∧ _extract_names JNull = [JStr "Unknown"].
Proof.
  repeat split; try reflexivity.
  intros n ns. by apply extract_name_objects.
Qed.

(** ** The outgoing request *)

Lemma make_request_shape (rid : Z) (method : string) (params : json) :
  make_request rid method params
  = JDict ([("jsonrpc", JStr "2.0"); ("id", JNum rid); ("method", JStr method)]
           ++ match params with JNull => [] | _ => [("params", params)] end).
Proof. by destruct params. Qed.

(** C7. A [call(method, params)] that gets through the critical section on an
    open socket writes exactly one frame, the object
    [{"jsonrpc": "2.0", "id": rid, "method": method}] with [rid] the id it
    was assigned, followed by the key ["params"] (bound to [params]) exactly
    when [params] is not [None]. *)
Theorem call_request_object (w : world) (c : nat) (method : string) (params : json)
    (s : nat) :
  calls w !! c = Some (Queued method params) → _lock (self w) = false →
  ws (self w) = Some s → is_open s w = true →
  let rid := _rid (self w) + 1 in
  let w' := send_done c (call_enter c w) in
  ∃ req,
    wire w' = wire w ++ [(s, req)]
    ∧ _pending (self w') !! rid = Some (length (futs w))
    ∧ calls w' !! c = Some (Waiting (length (futs w)))
    ∧ request_fields req
      = [("jsonrpc", JStr "2.0"); ("id", JNum rid); ("method", JStr method)]
        ++ match params with JNull => [] | _ => [("params", params)] end
    ∧ (PyDict.mem "params" (request_fields req) = true ↔ params ≠ JNull)
    ∧ (params ≠ JNull → PyDict.get "params" (request_fields req) = Some params).
Proof.
  intros Hc Hlock Hws Hopen rid w'.
  pose proof (lookup_lt_Some _ _ _ Hc) as Hlt.
  exists (make_request rid method params).
  subst w'. unfold call_enter. rewrite Hc, Hlock.
  cbn [self with_self set_futs set_pending set_rid ws]. rewrite Hws.
  unfold send_done. cbn [calls set_calls with_self set_futs].
  rewrite list_lookup_insert_eq by done.
  unfold is_open in *. cbn [socks set_calls with_self set_futs].
  destruct (socks w !! s) as [[]|] eqn:Hs; try discriminate.
  cbn [wire self calls set_wire set_calls with_self set_lock set_pending set_rid
         set_futs _pending].
  subst rid. rewrite lookup_insert_eq, !make_request_shape.
  split; [done|]. split; [done|].
  split; [apply list_lookup_insert_eq; by rewrite length_insert|].
  repeat split; try done; destruct params; cbn; try done.
Qed.

Lemma call_request_object_witness :
  let w := run boot [Start; LoopTest 0; Connected 0; Call "minecraft:players" JNull] in
  ∃ req,
    wire (send_done 0 (call_enter 0 w)) = wire w ++ [(0%nat, req)]
    ∧ request_fields req
      = [("jsonrpc", JStr "2.0"); ("id", JNum 1); ("method", JStr "minecraft:players")].
Proof.
  intros w.
  destruct (call_request_object w 0 "minecraft:players" JNull 0
              eq_refl eq_refl eq_refl eq_refl) as (req & Hw & _ & _ & Hf & _).
  exists req. split; [exact Hw | exact Hf].
Defined.

(** ** What the receive path leaves alone *)

Lemma outside_pending_fields (c c' : MSMPClient) :
  outside_pending c = outside_pending c' →
  ws c = ws c' ∧ _rid c = _rid c' ∧ _lock c = _lock c' ∧ _subs c = _subs c'
  ∧ _running c = _running c' ∧ _reader_task c = _reader_task c'.
Proof. unfold outside_pending. intros [= -> -> -> -> -> ->]. done. Qed.

Lemma dispatch_tasks (params : json) (cbs : list handler) (w : world) :
  foldl (fun w cb => create_task (THandler cb params) w) w cbs
  = set_tasks (tasks w ++ ((fun cb => THandler cb params) <$> cbs)) w.
Proof.
  revert w. induction cbs as [|cb cbs IH]; intros w; simpl.
  - rewrite app_nil_r. by destruct w.
  - rewrite IH. unfold create_task, set_tasks. simpl. by rewrite <- app_assoc.
Qed.

(** The loop of the [finally] block writes nothing: it raises at the first
    future that is not done, and ends when there is none. *)
Lemma fail_futures_cases (locs : list nat) (w : world) :
  (Exists (fun fut => futs w !! fut = Some Pending) locs
   ∧ fail_futures locs w = Raise AssertionError w)
  ∨ (Forall (fun fut => futs w !! fut ≠ Some Pending) locs
     ∧ fail_futures locs w = Ok w).
Proof.
  induction locs as [|fut locs IH]; cbn [fail_futures].
  - right. by split; [constructor|].
  - unfold fail_future. destruct (futs w !! fut) as [[]|] eqn:Hf;
      try (destruct IH as [[Hex ->]|[Hall ->]];
           [left; split; [by apply Exists_cons_tl|done]
           |right; split; [constructor; [congruence|done]|done]]).
    left. split; [by apply Exists_cons_hd|done].
Qed.

(** The [finally] block: with a call waiting it raises and changes nothing;
    otherwise it empties the table. *)
Lemma recv_finally_cases (w : world) :
  (awaited w ∧ recv_finally w = Raise AssertionError w)
  ∨ (¬ awaited w ∧ recv_finally w = Ok (with_self (set_pending ∅) w)).
Proof.
  unfold recv_finally.
  destruct (fail_futures_cases ((map_to_list (_pending (self w))).*2) w)
    as [[Hex ->]|[Hall ->]]; [left|right]; (split; [|done]).
  - apply Exists_exists in Hex as (fut & Hin & Hf).
    apply list_elem_of_fmap in Hin as ([rid fut'] & -> & Hin).
    apply elem_of_map_to_list in Hin. by exists rid, fut'.
  - intros (rid & fut & Hp & Hf).
    rewrite Forall_forall in Hall. apply (Hall fut); [|done].
    apply list_elem_of_fmap. exists (rid, fut). split; [done|].
    by apply elem_of_map_to_list.
Qed.

Lemma recv_finally_world (w : world) :
  world_of (recv_finally w) = w
  ∨ world_of (recv_finally w) = with_self (set_pending ∅) w.
Proof. destruct (recv_finally_cases w) as [[_ ->]|[_ ->]]; [by left|by right]. Qed.

Lemma handle_message_frame (msg : json) (w : world) :
  let w' := world_of (handle_message msg w) in
  outside_pending (self w') = outside_pending (self w)
  ∧ socks w' = socks w ∧ calls w' = calls w ∧ wire w' = wire w.
Proof.
  unfold handle_message.
  repeat case_match; simpl; try rewrite dispatch_tasks; simpl; done.
Qed.

Lemma recv_finally_frame (w : world) :
  let w' := world_of (recv_finally w) in
  outside_pending (self w') = outside_pending (self w)
  ∧ socks w' = socks w ∧ calls w' = calls w
  ∧ wire w' = wire w ∧ tasks w' = tasks w ∧ futs w' = futs w.
Proof. cbv zeta. by destruct (recv_finally_world w) as [->| ->]. Qed.

Lemma recv_abort_frame (t s : nat) (w : world) :
  outside_pending (self (recv_abort t s w)) = outside_pending (self w)
  ∧ calls (recv_abort t s w) = calls w ∧ wire (recv_abort t s w) = wire w.
Proof.
  destruct (recv_finally_frame w) as (H1 & _ & H3 & H4 & _).
  unfold recv_abort, set_task, close_sock, set_tasks, set_socks.
  cbn [self calls wire]. done.
Qed.

Lemma recv_step_frame (w : world) (ev : event) :
  is_recv ev →
  outside_pending (self (step w ev)) = outside_pending (self w)
  ∧ calls (step w ev) = calls w ∧ wire (step w ev) = wire w.
Proof.
  destruct ev; try done; intros _; cbn [step];
    unfold recv, recv_malformed, recv_end;
    destruct (tasks w !! t) as [[[]|]|]; try done.
  - pose proof (handle_message_frame msg w) as (Hf & _ & Hc & Hw).
    destruct (handle_message msg w) as [w'|e w']; cbn [world_of] in *.
    + done.
    + destruct (recv_abort_frame t s w') as (Hf' & Hc' & Hw').
      rewrite Hf', Hc', Hw'. done.
  - apply recv_abort_frame.
  - destruct (is_open s w); [done|].
    destruct (recv_finally_frame w) as (H1 & _ & H3 & H4 & _).
    unfold set_task, set_tasks. cbn [self calls wire]. done.
Qed.

(** Case analysis on a step that is not a turn of the receive loop. *)
Ltac crush_step :=
  unfold start, stop, on, call_ready, call_enter, send_done, send_fail, resume,
    timeout, loop_test, connected, connect_failed, close_sock;
  repeat case_match; simpl; try done; try lia.

(** Fields of the client that only the public API writes. *)
Lemma step_subs (w : world) (ev : event) :
  (∀ m h, ev ≠ On m h) → _subs (self (step w ev)) = _subs (self w).
Proof.
  intros Hev.
  destruct (decide (is_recv ev)) as [Hr|Hr].
  { destruct (recv_step_frame w ev Hr) as (Hf & _).
    by apply outside_pending_fields in Hf as (_ & _ & _ & -> & _). }
  destruct ev as [ | | m h | | | | | | | | | | | | | ]; simpl in Hr; try tauto;
    try (by destruct (Hev m h)); cbn [step]; crush_step.
Qed.

Lemma step_running (w : world) (ev : event) :
  ev ≠ Stop → _running (self w) = true → _running (self (step w ev)) = true.
Proof.
  intros Hev Hrun.
  destruct (decide (is_recv ev)) as [Hr|Hr].
  { destruct (recv_step_frame w ev Hr) as (Hf & _).
    apply outside_pending_fields in Hf as (_ & _ & _ & _ & Hf & _). congruence. }
  destruct ev; simpl in Hr; try tauto; cbn [step]; crush_step.
Qed.

(** ** [start] *)

Lemma start_running_noop (w : world) : _running (self w) = true → start w = w.
Proof. intros H. unfold start. by rewrite H. Qed.

Lemma start_sets_running (w : world) : _running (self (start w)) = true.
Proof. unfold start. by destruct (_running (self w)) eqn:H. Qed.

Lemma run_snoc (w : world) (evs : list event) (ev : event) :
  run w (evs ++ [ev]) = step (run w evs) ev.
Proof. unfold run. by rewrite foldl_app. Qed.

Lemma run_running (evs : list event) (w : world) :
  forallb (fun ev => negb (is_stop ev)) evs = true →
  _running (self w) = true → _running (self (run w evs)) = true.
Proof.
  revert w. induction evs as [|ev evs IH]; intros w Hns Hr; [done|].
  simpl in Hns. apply andb_prop in Hns as [Hev Hns].
  apply (IH (step w ev) Hns). apply step_running; [|done].
  intros ->. discriminate.
Qed.

(** C9. Once [start()] has run, and as long as [stop()] has not, a further
    [start()] returns at once: the whole state, the task list included, is
    what it was, so no second [_run] task exists.  In particular
    [start(); start()] leaves the state [start()] leaves. *)
Theorem start_idempotent (w : world) (evs : list event) :
  forallb (fun ev => negb (is_stop ev)) evs = true →
  run (start w) (evs ++ [Start]) = run (start w) evs
  ∧ start (start w) = start w.
Proof.
  intros Hns. split.
  - rewrite run_snoc. apply start_running_noop.
    apply run_running; [done | apply start_sets_running].
  - apply start_running_noop, start_sets_running.
Qed.

Lemma start_idempotent_witness :
  let evs := [LoopTest 0; Connected 0; On "joined" _on_join;
              Call "minecraft:players" JNull; Enter 0] in
  run (start boot) (evs ++ [Start]) = run (start boot) evs
  ∧ start (start boot) = start boot
  ∧ tasks (start (start boot)) = [TRun LoopTop].
Proof.
  intros evs.
  destruct (start_idempotent boot evs eq_refl) as [H1 H2].
  split; [exact H1 | split; [exact H2 | by rewrite H2]].
Defined.

(** ** Notifications *)

Lemma run_subs (evs : list event) (w : world) (m : string) :
  default [] (_subs (self (run w evs)) !! m)
  = default [] (_subs (self w) !! m) ++ registered m evs.
Proof.
  revert w. induction evs as [|ev evs IH]; intros w.
  - simpl. by rewrite app_nil_r.
  - change (run w (ev :: evs)) with (run (step w ev) evs). rewrite IH.
    destruct ev as [ | | m' h | | | | | | | | | | | | | ];
      try (rewrite step_subs by done; reflexivity).
    cbn [step registered omap list_omap]. unfold on. cbn [self with_self set_subs _subs].
    destruct (decide (m' = m)) as [->|Hne].
    + rewrite lookup_insert_eq. cbn. by rewrite <- app_assoc.
    + rewrite lookup_insert_ne by done. reflexivity.
Qed.

Lemma run_subs_frame (evs : list event) (w : world) :
  forallb (fun ev => negb (is_on ev)) evs = true →
  _subs (self (run w evs)) = _subs (self w).
Proof.
  revert w. induction evs as [|ev evs IH]; intros w Hno; [done|].
  simpl in Hno. apply andb_prop in Hno as [Hev Hno].
  change (run w (ev :: evs)) with (run (step w ev) evs).
  rewrite (IH _ Hno). apply step_subs. intros m h ->. discriminate.
Qed.

(** A message without ["id"] whose method is the string [m] (the missing
    method counting as [""]). *)
Lemma handle_notification (w : world) (d : list (string * json)) (m : string) :
  PyDict.mem "id" d = false →
  default (JStr "") (PyDict.get "method" d) = JStr m →
  handle_message (JDict d) w
  = Ok (set_tasks
          (tasks w ++ ((fun cb => THandler cb (default (JDict []) (PyDict.get "params" d)))
                         <$> default [] (_subs (self w) !! m))) w).
Proof.
  intros Hid Hm. unfold handle_message. cbn [has_id]. rewrite Hid, Hm.
  cbn [subs_get]. by rewrite dispatch_tasks.
Qed.

(** C5. A notification with method [m], received after any execution of the
    client, makes one task per handler given to [on(m, _)] during that
    execution, each applied to the notification's params, in the order of the
    registrations, and nothing else: no task for a handler of another method,
    no other change of state, no exception.  With no handler for [m] the
    state is unchanged. *)
Theorem notification_dispatch (evs : list event) (t s : nat)
    (d : list (string * json)) (m : string) :
  let w := run boot evs in
  let params := default (JDict []) (PyDict.get "params" d) in
  tasks w !! t = Some (TRun (Receiving s)) →
  PyDict.mem "id" d = false →
  default (JStr "") (PyDict.get "method" d) = JStr m →
  handle_message (JDict d) w = Ok (recv t (JDict d) w)
  ∧ recv t (JDict d) w
    = set_tasks (tasks w ++ ((fun cb => THandler cb params) <$> registered m evs)) w
  ∧ (registered m evs = [] → recv t (JDict d) w = w).
Proof.
  intros w params Ht Hid Hm.
  assert (recv t (JDict d) w
          = set_tasks (tasks w ++ ((fun cb => THandler cb params) <$> registered m evs)) w)
    as Hrecv.
  { unfold recv. rewrite Ht, (handle_notification w d m Hid Hm).
    subst w. rewrite run_subs. reflexivity. }
  split; [|split].
  - rewrite Hrecv, (handle_notification w d m Hid Hm).
    subst w. rewrite run_subs. reflexivity.
  - exact Hrecv.
  - intros Hnone. rewrite Hrecv, Hnone. simpl. rewrite app_nil_r. by destruct w.
Qed.

Lemma notification_dispatch_witness :
  let evs := [Start; On "joined" _on_join; On "left" _on_left; On "joined" (Callback 7);
              LoopTest 0; Connected 0] in
  let msg := [("method", JStr "joined");
              ("params", JDict [("player", JDict [("name", JStr "Bob")])])] in
  tasks (recv 0 (JDict msg) (run boot evs))
  = [TRun (Receiving 0);
     THandler _on_join (JDict [("player", JDict [("name", JStr "Bob")])]);
     THandler (Callback 7) (JDict [("player", JDict [("name", JStr "Bob")])])].
Proof.
  intros evs msg.
  destruct (notification_dispatch evs 0 0 msg "joined" eq_refl eq_refl eq_refl)
    as (_ & H & _).
  rewrite H. reflexivity.
Defined.

(** C10. A message with neither ["id"] nor ["params"] is dispatched like any
    notification, the handlers' argument being the empty dict; the loop body
    raises nothing, and the names [_on_join] and [_on_left] then announce are
    [["Unknown"]]. *)
Theorem notification_without_params (w : world) (t s : nat)
    (d : list (string * json)) (m : string) :
  tasks w !! t = Some (TRun (Receiving s)) →
  PyDict.mem "id" d = false →
  PyDict.get "params" d = None →
  default (JStr "") (PyDict.get "method" d) = JStr m →
  let made := (fun cb => THandler cb (JDict [])) <$> default [] (_subs (self w) !! m) in
  handle_message (JDict d) w = Ok (recv t (JDict d) w)
  ∧ recv t (JDict d) w = set_tasks (tasks w ++ made) w
  ∧ tasks (recv t (JDict d) w) !! t = Some (TRun (Receiving s))
  ∧ announced_names (THandler _on_join (JDict [])) = [JStr "Unknown"]
  ∧ announced_names (THandler _on_left (JDict [])) = [JStr "Unknown"].
Proof.
  intros Ht Hid Hp Hm made.
  pose proof (handle_notification w d m Hid Hm) as Hh. rewrite Hp in Hh. cbn [default] in Hh.
  assert (recv t (JDict d) w = set_tasks (tasks w ++ made) w) as Hrecv.
  { unfold recv. by rewrite Ht, Hh. }
  repeat split.
  - by rewrite Hrecv.
  - exact Hrecv.
  - rewrite Hrecv. cbn [tasks set_tasks]. by rewrite lookup_app_l by (by eapply lookup_lt_Some).
Qed.

Lemma notification_without_params_witness :
  let w := run boot [Start; On "joined" _on_join; LoopTest 0; Connected 0] in
  recv 0 (JDict [("method", JStr "joined")]) w
  = set_tasks (tasks w ++ [THandler _on_join (JDict [])]) w
  ∧ announced_names (THandler _on_join (JDict [])) = [JStr "Unknown"].
Proof.
  intros w.
  destruct (notification_without_params w 0 0 [("method", JStr "joined")] "joined"
              eq_refl eq_refl eq_refl eq_refl) as (_ & H & _ & Hn & _).
  split; [exact H | exact Hn].
Defined.

(** C8. The [finally] block of [_recv_loop] writes no field of the client but
    [_pending]; and no step other than [on] writes [_subs]: across any
    execution without [on] (drops, ends of the receive loop, reconnections,
    calls, ...) the table is what it was, so a notification received
    afterwards reaches the handlers registered before. *)
Theorem reconnect_keeps_subscriptions (w : world) (evs : list event) (t s : nat)
    (d : list (string * json)) (m : string) :
  forallb (fun ev => negb (is_on ev)) evs = true →
  let w' := run w evs in
  let params := default (JDict []) (PyDict.get "params" d) in
  tasks w' !! t = Some (TRun (Receiving s)) →
  PyDict.mem "id" d = false →
  default (JStr "") (PyDict.get "method" d) = JStr m →
  outside_pending (self (world_of (recv_finally w))) = outside_pending (self w)
  ∧ _subs (self w') = _subs (self w)
  ∧ recv t (JDict d) w'
    = set_tasks (tasks w' ++ ((fun cb => THandler cb params)
                                <$> default [] (_subs (self w) !! m))) w'.
Proof.
  intros Hno w' params Ht Hid Hm.
  split; [by destruct (recv_finally_frame w) as (Hout & _)|].
  split; [by apply run_subs_frame|].
  unfold recv. rewrite Ht, (handle_notification w' d m Hid Hm).
  subst w'. by rewrite run_subs_frame.
Qed.

Lemma reconnect_keeps_subscriptions_witness :
  let w := run boot [Start; On "joined" _on_join; LoopTest 0; Connected 0;
                     Call "minecraft:players" JNull; Enter 0; SendDone 0] in
  let evs := [Drop 0; RecvEnd 0; LoopTest 0; Connected 0] in
  tasks (recv 0 (JDict [("method", JStr "joined"); ("params", JStr "Carol")]) (run w evs))
  = [TRun (Receiving 1); THandler _on_join (JStr "Carol")].
Proof.
  intros w evs.
  destruct (reconnect_keeps_subscriptions w evs 0 1
              [("method", JStr "joined"); ("params", JStr "Carol")] "joined"
              eq_refl eq_refl eq_refl eq_refl) as (_ & _ & H).
  rewrite H. reflexivity.
Defined.

(** ** Connection loss *)

Lemma resume_settled (w : world) (c fut : nat) (f : future) :
  calls w !! c = Some (Waiting fut) → futs w !! fut = Some f →
  calls (resume c w) !! c
  = Some match f with
         | Pending => Waiting fut
         | Result v => Returned v
         | Exception e => Raised e
         | Cancelled => Raised CancelledError
         end.
Proof.
  intros Hc Hf. unfold resume. rewrite Hc, Hf.
  destruct f; cbn [calls set_calls]; try done;
    apply list_lookup_insert_eq; by eapply lookup_lt_Some.
Qed.

(** C3. The connection is lost while a call is waiting for its response: when
    the iteration over the closed socket ends (normal close, or
    [ConnectionClosed] raised and swallowed), the [finally] block raises
    [AssertionError] out of [ConnectionClosed(1006, "reconnecting")] before
    it has rejected anything and before [self._pending.clear()].  No future
    is rejected and the table keeps all its entries, into the next
    connection; the call keeps waiting, and ends by its timeout. *)
Theorem connection_loss_leaves_pending (w : world) (t s c : nat) (rid : Z) (fut : nat) :
  tasks w !! t = Some (TRun (Receiving s)) →
  is_open s w = false →
  calls w !! c = Some (Waiting fut) →
  _pending (self w) !! rid = Some fut →
  futs w !! fut = Some Pending →
  let w' := recv_end t w in
  recv_finally w = Raise AssertionError w
  ∧ futs w' = futs w
  ∧ _pending (self w') = _pending (self w)
  ∧ calls (resume c w') !! c = Some (Waiting fut)
  ∧ calls (timeout c w') !! c = Some (Raised TimeoutError)
  ∧ _pending (self (connected t (loop_test t w'))) = _pending (self w).
Proof.
  intros Ht Hclosed Hc Hr Hf w'.
  destruct (recv_finally_cases w) as [[_ Hfin]|[Hnot _]];
    [|destruct Hnot; by exists rid, fut].
  assert (w' = set_task t (TRun LoopTop) w) as Hw'.
  { subst w'. unfold recv_end. by rewrite Ht, Hclosed, Hfin. }
  assert (c < length (calls w))%nat as Hlt by (by eapply lookup_lt_Some).
  split; [done|]. rewrite Hw'. split; [done|]. split; [done|]. split; [|split].
  - by rewrite (resume_settled _ c fut Pending).
  - unfold timeout. cbn [calls futs set_task set_tasks]. rewrite Hc, Hf.
    cbn [calls set_calls set_futs]. by apply list_lookup_insert_eq.
  - unfold loop_test, connected, set_task.
    repeat case_match; cbn [self set_tasks with_self set_socks set_ws _pending tasks] in *;
      done.
Qed.

Lemma connection_loss_leaves_pending_witness :
  let w := run boot [Start; LoopTest 0; Connected 0;
                     Call "minecraft:players" JNull; Enter 0; SendDone 0; Drop 0] in
  futs w = [Pending]
  ∧ futs (recv_end 0 w) = [Pending]
  ∧ size (_pending (self (recv_end 0 w))) = 1%nat
  ∧ calls (timeout 0 (recv_end 0 w)) = [Raised TimeoutError].
Proof.
  intros w.
  destruct (connection_loss_leaves_pending w 0 0 0 1 0
              eq_refl eq_refl eq_refl eq_refl eq_refl) as (_ & Hfuts & Hp & _).
  split; [reflexivity|]. split; [rewrite Hfuts; reflexivity|].
  split; [rewrite Hp; reflexivity | reflexivity].
Defined.

(** ** Responses *)

(** [pop] gets to hash its key when the table has an entry. *)
Ltac table_nonempty Hp :=
  match goal with
  | |- context [decide (_pending (self ?w) = ∅)] =>
      destruct (decide (_pending (self w) = ∅)) as [Hempty|_];
      [by rewrite Hempty, lookup_empty in Hp|]
  end.

(** A message whose ["id"] equals the key [rid] of the table: the entry is
    popped whatever the state of its future. *)
Lemma response_pops_entry (w : world) (d : list (string * json)) (id : json)
    (rid : Z) :
  PyDict.get "id" d = Some id → int_key id = inr (Some rid) →
  ∃ w', handle_message (JDict d) w = Ok w'
        ∧ _pending (self w') = delete rid (_pending (self w))
        ∧ tasks w' = tasks w.
Proof.
  intros Hid Hk. unfold handle_message, has_id, PyDict.mem.
  rewrite Hid, Hk. cbn [mbind option_bind].
  destruct (decide (_pending (self w) = ∅)) as [Hempty|_].
  { exists w. by rewrite Hempty, delete_empty. }
  destruct (_pending (self w) !! rid) as [fut|]; cbn [futs with_self];
    [|by eexists].
  destruct (futs w !! fut) as [[]|]; try by eexists.
  destruct (PyDict.get "error" d); by eexists.
Qed.

(** The guard [not fut.done()]: a response to a call that is over (timed
    out, say) only removes the entry. *)
Lemma response_after_done (w : world) (d : list (string * json)) (id : json)
    (rid : Z) (fut : nat) (f : future) :
  PyDict.get "id" d = Some id → int_key id = inr (Some rid) →
  _pending (self w) !! rid = Some fut → futs w !! fut = Some f → done f = true →
  handle_message (JDict d) w
  = Ok (with_self (fun c => set_pending (delete rid (_pending c)) c) w).
Proof.
  intros Hid Hk Hp Hf Hd. unfold handle_message, has_id, PyDict.mem.
  rewrite Hid, Hk. table_nonempty Hp.
  cbn [mbind option_bind]. rewrite Hp. cbn [futs with_self].
  rewrite Hf. by destruct f.
Qed.

(** C4. A message whose ["id"] is the key of a pending entry, that is, of an
    entry whose future is not done: with an ["error"] field the future is
    rejected with [RuntimeError(msg["error"])], the payload being passed as
    it is, and the call raises it; otherwise the future is resolved with
    [msg.get("result")], [None] when the field is absent, and the call
    returns it.  Either way the entry leaves the table. *)
Theorem response_settles_pending_call (w : world) (d : list (string * json))
    (id : json) (rid : Z) (fut : nat) :
  PyDict.get "id" d = Some id → int_key id = inr (Some rid) →
  _pending (self w) !! rid = Some fut → futs w !! fut = Some Pending →
  ∃ w',
    handle_message (JDict d) w = Ok w'
    ∧ _pending (self w') = delete rid (_pending (self w))
    ∧ _pending (self w') !! rid = None
    ∧ (∀ err, PyDict.get "error" d = Some err →
         futs w' !! fut = Some (Exception (RuntimeError err))
         ∧ ∀ c, calls w !! c = Some (Waiting fut) →
                calls (resume c w') !! c = Some (Raised (RuntimeError err)))
    ∧ (PyDict.get "error" d = None →
         let v := default JNull (PyDict.get "result" d) in
         futs w' !! fut = Some (Result v)
         ∧ ∀ c, calls w !! c = Some (Waiting fut) →
                calls (resume c w') !! c = Some (Returned v)).
Proof.
  intros Hid Hk Hp Hf.
  pose proof (lookup_lt_Some _ _ _ Hf) as Hlt.
  unfold handle_message, has_id, PyDict.mem.
  rewrite Hid, Hk. table_nonempty Hp.
  cbn [mbind option_bind]. rewrite Hp. cbn [futs with_self].
  rewrite Hf.
  destruct (PyDict.get "error" d) as [err|] eqn:He; eexists; (split; [reflexivity|]);
    cbn [self set_future set_futs with_self set_pending _pending futs];
    (split; [done|]); (split; [apply lookup_delete_eq|]); split; try done.
  - intros err' [= <-]. split; [by apply list_lookup_insert_eq|].
    intros c Hc.
    rewrite (resume_settled _ c fut (Exception (RuntimeError err)));
      [done | exact Hc | by apply list_lookup_insert_eq].
  - intros _. split; [by apply list_lookup_insert_eq|].
    intros c Hc.
    rewrite (resume_settled _ c fut (Result (default JNull (PyDict.get "result" d))));
      [done | exact Hc | by apply list_lookup_insert_eq].
Qed.

Lemma response_settles_pending_call_witness :
  let w := run boot [Start; LoopTest 0; Connected 0; Call "m" JNull; Enter 0; SendDone 0] in
  let err := JDict [("code", JNum (-1)); ("message", JStr "bad")] in
  ∃ w', handle_message (JDict [("id", JNum 1); ("error", err)]) w = Ok w'
        ∧ size (_pending (self w')) = 0%nat
        ∧ calls (resume 0 w') !! 0%nat = Some (Raised (RuntimeError err)).
Proof.
  intros w err.
  destruct (response_settles_pending_call w [("id", JNum 1); ("error", err)]
              (JNum 1) 1 0 eq_refl eq_refl eq_refl eq_refl)
    as (w' & Hh & Hp & _ & Herr & _).
  exists w'. split; [exact Hh|]. split.
  - rewrite Hp. reflexivity.
  - destruct (Herr err eq_refl) as [_ Hc]. exact (Hc 0%nat eq_refl).
Defined.

(** ** Timeouts *)

(** [wait_for] expiring on a future that is not done: the call raises
    [TimeoutError], the future is cancelled, and the client object is not
    written at all; [_pending] in particular keeps the entry. *)
Lemma timeout_spec (w : world) (c fut : nat) :
  calls w !! c = Some (Waiting fut) → futs w !! fut = Some Pending →
  calls (timeout c w) !! c = Some (Raised TimeoutError)
  ∧ futs (timeout c w) !! fut = Some Cancelled
  ∧ self (timeout c w) = self w.
Proof.
  intros Hc Hf. unfold timeout. rewrite Hc, Hf.
  cbn [calls futs self set_calls set_futs].
  split; [|split; [|done]].
  - apply list_lookup_insert_eq. by eapply lookup_lt_Some.
  - apply list_lookup_insert_eq. by eapply lookup_lt_Some.
Qed.

(** C1 (as the code behaves). [call("minecraft:players")] on a fresh, connected
    client, no response arriving before the timeout: the call raises
    [TimeoutError], and the entry for its id 1 is still in [_pending],
    bound to the cancelled future. *)
Example timeout_leaves_pending_entry :
  let w := run boot [Start; LoopTest 0; Connected 0;
                     Call "minecraft:players" JNull; Enter 0; SendDone 0; Timeout 0] in
  calls w !! 0%nat = Some (Raised TimeoutError)
  ∧ _pending (self w) !! 1 = Some 0%nat
  ∧ futs w !! 0%nat = Some Cancelled
  ∧ size (_pending (self w)) = 1%nat.
Proof. repeat split; reflexivity. Qed.

(** ** Request ids *)

Lemma request_id_make (rid : Z) (method : string) (params : json) :
  request_id (make_request rid method params) = Some rid.
Proof. rewrite make_request_shape. reflexivity. Qed.

Lemma call_enter_registers (w : world) (c : nat) :
  can_enter c w = true →
  _pending (self (call_enter c w)) !! (_rid (self w) + 1) = Some (length (futs w))
  ∧ futs (call_enter c w) !! length (futs w) = Some Pending.
Proof.
  unfold call_enter, can_enter. intros Hen.
  repeat case_match; try done; simpl;
    (split; [apply lookup_insert_eq|]);
    rewrite lookup_app_r, Nat.sub_diag by lia; done.
Qed.

Lemma call_enter_rid (w : world) (c : nat) :
  _rid (self (call_enter c w))
  = if can_enter c w then _rid (self w) + 1 else _rid (self w).
Proof. unfold call_enter, can_enter. by repeat case_match. Qed.

Lemma other_step_frame (w : world) (ev : event) :
  ¬ is_call_step ev →
  _rid (self (step w ev)) = _rid (self w) ∧ _lock (self (step w ev)) = _lock (self w)
  ∧ calls (step w ev) = calls w ∧ wire (step w ev) = wire w.
Proof.
  intros Hev.
  destruct (decide (is_recv ev)) as [Hr|Hr].
  { destruct (recv_step_frame w ev Hr) as (Hf & Hc & Hw).
    apply outside_pending_fields in Hf as (_ & ? & ? & _). done. }
  destruct ev; simpl in Hev, Hr; try tauto; cbn [step]; crush_step.
Qed.

Lemma step_rid_mono (w : world) (ev : event) :
  _rid (self w) ≤ _rid (self (step w ev)).
Proof.
  destruct (decide (is_call_step ev)) as [Hc|Hc].
  - destruct ev; simpl in Hc; try tauto; cbn [step]; crush_step.
  - destruct (other_step_frame w ev Hc) as (-> & _). lia.
Qed.

Lemma run_rid_mono (evs : list event) (w : world) :
  _rid (self w) ≤ _rid (self (run w evs)).
Proof.
  revert w. induction evs as [|ev evs IH]; intros w; [simpl; lia|].
  change (run w (ev :: evs)) with (run (step w ev) evs).
  pose proof (step_rid_mono w ev). pose proof (IH (step w ev)). lia.
Qed.

Lemma issued_above (evs : list event) (w : world) :
  Forall (fun i => _rid (self w) < i) (issued w evs)
  ∧ StronglySorted Z.lt (issued w evs).
Proof.
  revert w. induction evs as [|ev evs IH]; intros w.
  - split; constructor.
  - destruct (IH (step w ev)) as [Hab Hso].
    pose proof (step_rid_mono w ev) as Hmono.
    assert (Forall (fun i => _rid (self w) < i) (issued (step w ev) evs)) as Hab'.
    { eapply Forall_impl; [exact Hab|]. simpl. intros; lia. }
    cbn [issued].
    destruct ev; try (split; [exact Hab' | exact Hso]).
    destruct (can_enter c w) eqn:Hen; [|split; [exact Hab' | exact Hso]].
    cbn [step] in *. rewrite call_enter_rid, Hen in Hab.
    split.
    + constructor; [lia | exact Hab'].
    + constructor; [exact Hso | exact Hab].
Qed.

Lemma wire_inv_boot : wire_inv boot.
Proof. split; try done; constructor. Qed.

Lemma wire_inv_ext (w w' : world) :
  _rid (self w') = _rid (self w) → _lock (self w') = _lock (self w) →
  calls w' = calls w → wire w' = wire w →
  wire_inv w → wire_inv w'.
Proof.
  intros Hr Hl Hc Hw [H1 H2 H3 H4 H5].
  split; unfold wire_ids in *; rewrite ?Hr, ?Hl, ?Hc, ?Hw; done.
Qed.

Section WireInvariant.

Context (w : world) (Hinv : wire_inv w).

(** The two clauses of the invariant about the critical section, once no
    activation of the new state is in it ([Hnone]). *)
Local Ltac nobody_sending Hnone :=
  let Hs := fresh "Hs" in
  first [ intros ? ? ? ? ? Hs; by destruct (Hnone _ _ _ _ _ Hs)
        | intros ? ? ? ? ? ? ? ? ? ? Hs; by destruct (Hnone _ _ _ _ _ Hs) ].

Lemma lock_free_nobody_sending :
  _lock (self w) = false →
  ∀ c r f q s, calls w !! c = Some (Sending r f q s) → False.
Proof.
  intros Hlock c r f q s Hs.
  destruct (inv_sending w Hinv _ _ _ _ _ Hs) as (Ht & _). congruence.
Qed.

(** An activation that is not in the critical section moves on. *)
Lemma wire_inv_overwrite (w' : world) (c : nat) (st : call_state) :
  (∀ r f q s, st ≠ Sending r f q s) →
  _rid (self w') = _rid (self w) → _lock (self w') = _lock (self w) →
  calls w' = <[c := st]> (calls w) → wire w' = wire w →
  wire_inv w'.
Proof.
  intros Hst Hr Hl Hc Hw. destruct Hinv as [H1 H2 H3 H4 H5].
  assert (∀ c' r f q s, calls w' !! c' = Some (Sending r f q s) →
                        calls w !! c' = Some (Sending r f q s)) as Hold.
  { intros c' r f q s. rewrite Hc.
    intros [(_ & Heq & _)|(_ & Hl')]%list_lookup_insert_Some; [|done].
    by destruct (Hst r f q s). }
  split; unfold wire_ids in *; rewrite ?Hr, ?Hl, ?Hw; try done.
  - intros c' r f q s Hs. by apply (H4 c' r f q s), Hold.
  - intros c1 c2 r f q s r' f' q' s' Hs1 Hs2.
    eapply H5; by apply Hold.
Qed.

Lemma wire_inv_call_ready (method : string) (params : json) :
  wire_inv (call_ready method params w).
Proof.
  destruct Hinv as [H1 H2 H3 H4 H5].
  unfold call_ready. destruct (_wait_ready w); [|done].
  assert (∀ c r f q s, (calls w ++ [Queued method params]) !! c = Some (Sending r f q s) →
                       calls w !! c = Some (Sending r f q s)) as Hold.
  { intros c r f q s [Hc|(_ & Hc)]%lookup_app_Some; [done|].
    destruct (c - length (calls w))%nat; done. }
  split; unfold wire_ids in *; cbn [self wire calls set_calls]; try done.
  - intros c r f q s Hs. by apply (H4 c r f q s), Hold.
  - intros c1 c2 r f q s r' f' q' s' Hs1 Hs2. eapply H5; by apply Hold.
Qed.

Lemma wire_inv_call_enter (c : nat) : wire_inv (call_enter c w).
Proof.
  pose proof Hinv as [H1 H2 H3 H4 H5].
  unfold call_enter.
  destruct (calls w !! c) as [[method params| | | |]|] eqn:Hc; try done.
  destruct (_lock (self w)) eqn:Hlock; [done|].
  pose proof (lock_free_nobody_sending Hlock) as Hnone.
  assert (Forall (fun i => i < _rid (self w) + 1) (wire_ids w)) as Hlt.
  { eapply Forall_impl; [exact H3|]. simpl. intros; lia. }
  assert (Forall (fun i => i ≤ _rid (self w) + 1) (wire_ids w)) as Hle.
  { eapply Forall_impl; [exact H3|]. simpl. intros; lia. }
  cbn [self with_self set_futs set_pending set_rid ws].
  destruct (ws (self w)) as [s|] eqn:Hws.
  - assert (∀ c' r f q s',
              <[c := Sending (_rid (self w) + 1) (length (futs w))
                       (make_request (_rid (self w) + 1) method params) s]> (calls w)
                !! c' = Some (Sending r f q s') →
              c' = c ∧ r = _rid (self w) + 1
              ∧ q = make_request (_rid (self w) + 1) method params) as Hnew.
    { intros c' r f q s'.
      intros [(-> & Heq & _)|(_ & Hl')]%list_lookup_insert_Some.
      - by injection Heq as <- <- <- <-.
      - by destruct (Hnone _ _ _ _ _ Hl'). }
    split; unfold wire_ids in *;
      cbn [self wire calls set_calls with_self set_futs set_lock set_pending set_rid
             _rid _lock]; try done.
    + intros c' r f q s' Hs. destruct (Hnew _ _ _ _ _ Hs) as (-> & -> & ->).
      split; [done|]. split; [apply request_id_make|]. done.
    + intros c1 c2 r f q s1 r' f' q' s2 Hs1 Hs2.
      destruct (Hnew _ _ _ _ _ Hs1) as (-> & _).
      by destruct (Hnew _ _ _ _ _ Hs2) as (-> & _).
  - assert (∀ c' r f q s',
              <[c := Raised AttributeError]> (calls w) !! c' = Some (Sending r f q s') →
              False) as Hnew.
    { intros c' r f q s'.
      intros [(_ & Heq & _)|(_ & Hl')]%list_lookup_insert_Some; [done|].
      by destruct (Hnone _ _ _ _ _ Hl'). }
    split; unfold wire_ids in *;
      cbn [self wire calls set_calls with_self set_futs set_lock set_pending set_rid
             _rid _lock]; try done; nobody_sending Hnew.
Qed.

(** Overwriting the one activation in the critical section leaves none. *)
Lemma leave_critical_section (c : nat) (rid : Z) (fut : nat) (req : json) (s : nat)
    (st : call_state) :
  calls w !! c = Some (Sending rid fut req s) →
  (∀ r f q s', st ≠ Sending r f q s') →
  ∀ c' r f q s', <[c := st]> (calls w) !! c' = Some (Sending r f q s') → False.
Proof.
  intros Hc Hst c' r f q s'.
  intros [(_ & Heq & _)|(Hne & Hl')]%list_lookup_insert_Some.
  - by destruct (Hst r f q s').
  - apply Hne. by eapply (inv_single w Hinv).
Qed.

Lemma wire_inv_send_done (c : nat) : wire_inv (send_done c w).
Proof.
  pose proof Hinv as [H1 H2 H3 H4 H5].
  unfold send_done.
  destruct (calls w !! c) as [[|rid fut req s| | |]|] eqn:Hc; try done.
  destruct (is_open s w); [|done].
  destruct (H4 _ _ _ _ _ Hc) as (Hlock & Hreq & Hrid & Hlt).
  pose proof (leave_critical_section c rid fut req s (Waiting fut) Hc
                ltac:(done)) as Hnone.
  assert (omap (fun fr : nat * json => request_id fr.2) (wire w ++ [(s, req)])
          = wire_ids w ++ [rid]) as Hids.
  { rewrite omap_app. cbn. by rewrite Hreq. }
  split; unfold wire_ids in *;
    cbn [self wire calls set_calls set_wire with_self set_lock _rid _lock];
    rewrite ?Hids; try nobody_sending Hnone.
  - apply StronglySorted_app_2; [|done|by repeat constructor].
    intros x1 x2 Hx1 ->%list_elem_of_singleton.
    by apply (proj1 (Forall_forall _ _) Hlt).
  - rewrite !length_app, H2. done.
  - apply Forall_app. split; [done|]. constructor; [lia|constructor].
Qed.

Lemma wire_inv_send_fail (c : nat) (code : Z) (reason : string) :
  wire_inv (send_fail c code reason w).
Proof.
  pose proof Hinv as [H1 H2 H3 H4 H5].
  unfold send_fail.
  destruct (calls w !! c) as [[|rid fut req s| | |]|] eqn:Hc; try done.
  destruct (is_open s w); [done|].
  pose proof (leave_critical_section c rid fut req s
                (Raised (ConnectionClosed code reason)) Hc ltac:(done)) as Hnone.
  split; unfold wire_ids in *;
    cbn [self wire calls set_calls with_self set_lock _rid _lock]; try done;
    nobody_sending Hnone.
Qed.

Lemma wire_inv_step (ev : event) : wire_inv (step w ev).
Proof.
  destruct (decide (is_call_step ev)) as [Hc|Hc].
  - destruct ev; simpl in Hc; try tauto; cbn [step].
    + apply wire_inv_call_ready.
    + apply wire_inv_call_enter.
    + apply wire_inv_send_done.
    + apply wire_inv_send_fail.
    + unfold resume.
      destruct (calls w !! c) as [[| | fut | |]|]; try done.
      destruct (futs w !! fut) as [[]|]; try done;
        (eapply wire_inv_overwrite; [|done..]; done).
    + unfold timeout.
      destruct (calls w !! c) as [[| | fut | |]|]; try done.
      destruct (futs w !! fut) as [[]|]; try done.
      eapply wire_inv_overwrite; [|done..]; done.
  - destruct (other_step_frame w ev Hc) as (? & ? & ? & ?).
    by eapply wire_inv_ext.
Qed.

End WireInvariant.

Lemma wire_inv_run (evs : list event) (w : world) :
  wire_inv w → wire_inv (run w evs).
Proof.
  revert w. induction evs as [|ev evs IH]; intros w Hinv; [done|].
  apply (IH (step w ev)). by apply wire_inv_step.
Qed.

Lemma sorted_lt_NoDup (l : list Z) : StronglySorted Z.lt l → NoDup l.
Proof.
  induction 1 as [|x l Hs IH Hall]; constructor; [|done].
  intros Hin. apply (proj1 (Forall_forall _ _) Hall) in Hin. lia.
Qed.

(** C2. Along every execution of a client from its creation: the ids
    assigned by [call] are strictly increasing in the order of assignment,
    hence pairwise distinct; the ids of the requests written to the socket
    are strictly increasing in the order of the writes, hence pairwise
    distinct, every frame carrying one; and the counter never decreases, a
    new connection (like every step outside [call]) leaving it as it is. *)
Theorem request_ids_increasing (evs : list event) :
  let w := run boot evs in
  StronglySorted Z.lt (issued boot evs) ∧ NoDup (issued boot evs)
  ∧ StronglySorted Z.lt (wire_ids w) ∧ NoDup (wire_ids w)
  ∧ length (wire_ids w) = length (wire w)
  ∧ (∀ evs', _rid (self w) ≤ _rid (self (run w evs')))
  ∧ (∀ ev, ¬ is_call_step ev → _rid (self (step w ev)) = _rid (self w)).
Proof.
  intros w.
  destruct (issued_above evs boot) as [_ Hiss].
  pose proof (wire_inv_run evs boot wire_inv_boot) as [H1 H2 _ _ _].
  split; [done|]. split; [by apply sorted_lt_NoDup|].
  split; [done|]. split; [by apply sorted_lt_NoDup|].
  split; [done|]. split.
  - intros evs'. apply run_rid_mono.
  - intros ev Hev. by destruct (other_step_frame w ev Hev) as (-> & _).
Qed.

Example request_ids_two_calls :
  let evs := [Start; LoopTest 0; Connected 0; Call "a" JNull; Call "b" JNull;
              Enter 0; Enter 1; SendDone 0; Enter 1; Drop 0; SendFail 1 1006 "";
              RecvEnd 0; LoopTest 0; Connected 0; Call "c" JNull; Enter 2; SendDone 2] in
  issued boot evs = [1; 2; 3] ∧ wire_ids (run boot evs) = [1; 3].
Proof. split; reflexivity. Qed.

(** * Further properties of the client *)

(** ** Messages *)

Lemma pop_absent (w : world) (rid : Z) :
  _pending (self w) !! rid = None →
  with_self (fun c => set_pending (delete rid (_pending c)) c) w = w.
Proof.
  intros Hn. destruct w as [[] ? ? ? ? ?]; cbn in *.
  unfold with_self, set_pending; cbn. by rewrite delete_id.
Qed.

(** X1. A response whose ["id"] is hashable and is the key of no entry of
    [_pending] (a string, [None], or a number nobody waits for) is dropped:
    the iteration raises nothing and leaves the whole state as it was. *)
Theorem unmatched_response_discarded (w : world) (d : list (string * json)) (id : json) :
  PyDict.get "id" d = Some id →
  hashable id = true →
  (∀ rid, int_key id = inr (Some rid) → _pending (self w) !! rid = None) →
  handle_message (JDict d) w = Ok w.
Proof.
  intros Hid Hh Hno. unfold handle_message, has_id, PyDict.mem. rewrite Hid.
  destruct (decide (_pending (self w) = ∅)) as [|_]; [done|].
  destruct (int_key id) as [e|[rid|]] eqn:Hk.
  - by destruct id.
  - cbn [mbind option_bind]. rewrite (Hno rid eq_refl), pop_absent; by auto.
  - done.
Qed.

Lemma unmatched_response_discarded_witness :
  let w := run boot [Start; LoopTest 0; Connected 0; Call "m" JNull; Enter 0; SendDone 0] in
  handle_message (JDict [("id", JNum 7); ("result", JBool true)]) w = Ok w
  ∧ handle_message (JDict [("id", JStr "1"); ("result", JBool true)]) w = Ok w.
Proof.
  intros w. split.
  - apply (unmatched_response_discarded w [("id", JNum 7); ("result", JBool true)]
             (JNum 7) eq_refl eq_refl).
    intros rid [= <-]. reflexivity.
  - apply (unmatched_response_discarded w [("id", JStr "1"); ("result", JBool true)]
             (JStr "1") eq_refl eq_refl).
    intros rid [=].
Defined.

(** X2. A response that arrives after its call has timed out: the entry the
    timeout left behind is removed, the future stays cancelled, whatever
    result or error the message carries is ignored, and the call's outcome
    remains [TimeoutError]. *)
Theorem late_response_after_timeout (w : world) (c fut : nat) (rid : Z)
    (d : list (string * json)) (id : json) :
  calls w !! c = Some (Waiting fut) → futs w !! fut = Some Pending →
  _pending (self w) !! rid = Some fut →
  PyDict.get "id" d = Some id → int_key id = inr (Some rid) →
  let w1 := timeout c w in
  ∃ w2, handle_message (JDict d) w1 = Ok w2
        ∧ _pending (self w2) = delete rid (_pending (self w))
        ∧ futs w2 = futs w1
        ∧ futs w2 !! fut = Some Cancelled
        ∧ calls w2 !! c = Some (Raised TimeoutError)
        ∧ resume c w2 = w2.
Proof.
  intros Hc Hf Hp Hid Hk w1. subst w1.
  destruct (timeout_spec w c fut Hc Hf) as (Hc1 & Hf1 & Hself).
  assert (_pending (self (timeout c w)) !! rid = Some fut) as Hp1 by (by rewrite Hself).
  exists (with_self (fun c => set_pending (delete rid (_pending c)) c) (timeout c w)).
  split; [by apply (response_after_done (timeout c w) d id rid fut Cancelled)|].
  cbn [self with_self set_pending _pending futs calls].
  split; [by rewrite Hself|]. split; [done|]. split; [done|].
  split; [done|].
  unfold resume. cbn [calls with_self]. by rewrite Hc1.
Qed.

Lemma late_response_after_timeout_witness :
  let w := run boot [Start; LoopTest 0; Connected 0; Call "m" JNull; Enter 0; SendDone 0] in
  ∃ w2, handle_message (JDict [("id", JNum 1); ("result", JStr "late")]) (timeout 0 w) = Ok w2
        ∧ size (_pending (self w2)) = 0%nat
        ∧ calls w2 !! 0%nat = Some (Raised TimeoutError).
Proof.
  intros w.
  destruct (late_response_after_timeout w 0 0 1 [("id", JNum 1); ("result", JStr "late")]
              (JNum 1) eq_refl eq_refl eq_refl eq_refl eq_refl)
    as (w2 & Hh & Hp & _ & _ & Hc & _).
  exists w2. split; [exact Hh|]. split; [by rewrite Hp | exact Hc].
Defined.

Lemma receive_raises_iff_unacceptable_aux (msg : json) (w : world) :
  (acceptable msg w = true → ∃ w', handle_message msg w = Ok w')
  ∧ (acceptable msg w = false → ∃ e, handle_message msg w = Raise e w).
Proof.
  unfold acceptable, handle_message, has_id, PyDict.mem, int_key, subs_get, hashable.
  split; intros Hacc; repeat case_match; simplify_eq; eauto;
    cbn [orb] in Hacc;
    first [apply bool_decide_eq_true in Hacc | apply bool_decide_eq_false in Hacc];
    done.
Qed.

(** X3. Whether an iteration of the receive loop raises: it goes through
    exactly for the messages [acceptable] in the state, and for any other (a
    JSON scalar, list or string, an unhashable ["method"], an unhashable
    ["id"] while the table has entries) it raises before anything is
    written.  The state matters through one thing only, whether [_pending]
    is empty: an unhashable ["id"] is discarded then. *)
Theorem receive_raises_iff_unacceptable (msg : json) (w : world) :
  ((∃ w', handle_message msg w = Ok w') ↔ acceptable msg w = true)
  ∧ ((∃ e, handle_message msg w = Raise e w) ↔ acceptable msg w = false)
  ∧ (∀ w0, (_pending (self w0) = ∅ ↔ _pending (self w) = ∅) →
           acceptable msg w0 = acceptable msg w)
  ∧ (∀ d id, msg = JDict d → PyDict.get "id" d = Some id → hashable id = false →
             acceptable msg w = bool_decide (_pending (self w) = ∅)).
Proof.
  destruct (receive_raises_iff_unacceptable_aux msg w) as [Hok Hbad].
  split; [|split; [|split]].
  - destruct (acceptable msg w) eqn:Hacc.
    + destruct (Hok eq_refl) as [w' Hw']. rewrite Hw'. split; [done|by eauto].
    + destruct (Hbad eq_refl) as [e He]. rewrite He. split; [by intros [w' ?]|done].
  - destruct (acceptable msg w) eqn:Hacc.
    + destruct (Hok eq_refl) as [w' Hw']. rewrite Hw'. split; [by intros [e ?]|done].
    + destruct (Hbad eq_refl) as [e He]. rewrite He. split; [done|by eauto].
  - intros w0 Hiff. unfold acceptable.
    destruct msg as [| | | | |d]; try done.
    destruct (PyDict.get "id" d); [|done].
    f_equal. by apply bool_decide_ext.
  - intros d id -> Hid Hh. unfold acceptable. by rewrite Hid, Hh.
Qed.

Lemma receive_raises_iff_unacceptable_witness :
  let msg := JDict [("id", JList [JNum 1])] in
  let w0 := run boot [Start; LoopTest 0; Connected 0] in
  let w1 := run w0 [Call "m" JNull; Enter 0; SendDone 0] in
  (∃ w', handle_message msg w0 = Ok w') ∧ (∃ e, handle_message msg w1 = Raise e w1).
Proof.
  intros msg w0 w1. split.
  - destruct (receive_raises_iff_unacceptable msg w0) as ([_ Hok] & _).
    apply Hok. reflexivity.
  - destruct (receive_raises_iff_unacceptable msg w1) as (_ & [_ Hbad] & _).
    apply Hbad. reflexivity.
Defined.

(** ** A message that makes the receive loop raise *)

Lemma close_sock_closed (s : nat) (w : world) : is_open s (close_sock s w) = false.
Proof.
  unfold is_open, close_sock. cbn [socks set_socks].
  destruct (decide (s < length (socks w))%nat) as [Hlt|Hge].
  - by rewrite list_lookup_insert_eq.
  - rewrite list_insert_ge by lia. by rewrite lookup_ge_None_2 by lia.
Qed.

(** X4. A message that is not [acceptable] (and likewise a frame that is not
    JSON) ends the connection: the socket is closed and the [_run] task is
    back at the top of its loop, the subscriptions being untouched.  It
    fails no call: futures and calls are as they were.  While a call is
    waiting for its response the [finally] block raises before
    [self._pending.clear()] and the table keeps all its entries; the table
    is emptied when no entry has a future that is not done. *)
Theorem bad_message_drops_connection (w : world) (t s : nat) (msg : json) :
  tasks w !! t = Some (TRun (Receiving s)) →
  acceptable msg w = false →
  let w' := recv t msg w in
  w' = recv_malformed t w
  ∧ is_open s w' = false
  ∧ tasks w' !! t = Some (TRun LoopTop)
  ∧ futs w' = futs w
  ∧ calls w' = calls w
  ∧ (awaited w → _pending (self w') = _pending (self w))
  ∧ (¬ awaited w → _pending (self w') = ∅)
  ∧ _subs (self w') = _subs (self w).
Proof.
  intros Ht Hbad w'.
  destruct (proj2 (receive_raises_iff_unacceptable_aux msg w) Hbad) as [e He].
  assert (w' = recv_abort t s w) as ->.
  { subst w'. unfold recv. by rewrite Ht, He. }
  destruct (recv_finally_frame w) as (Hout & _ & Hcalls & _ & Htasks & Hfuts).
  apply outside_pending_fields in Hout as (_ & _ & _ & Hsubs & _).
  split; [unfold recv_malformed; by rewrite Ht|].
  unfold recv_abort.
  split; [apply close_sock_closed|].
  split.
  { cbn [tasks set_task set_tasks close_sock set_socks]. rewrite Htasks.
    apply list_lookup_insert_eq. by eapply lookup_lt_Some. }
  split; [exact Hfuts|]. split; [exact Hcalls|].
  cbn [self set_task set_tasks close_sock set_socks].
  split; [|split; [|exact Hsubs]]; intros Haw;
    destruct (recv_finally_cases w) as [[Haw' ->]|[Haw' ->]]; done.
Qed.

Lemma bad_message_drops_connection_witness :
  let w := run boot [Start; LoopTest 0; Connected 0; Call "m" JNull; Enter 0; SendDone 0] in
  let w' := recv 0 (JDict [("id", JList [JNum 1])]) w in
  size (_pending (self w')) = 1%nat ∧ futs w' = [Pending]
  ∧ tasks w' = [TRun LoopTop] ∧ socks w' = [true].
Proof.
  intros w w'.
  destruct (bad_message_drops_connection w 0 0 (JDict [("id", JList [JNum 1])])
              eq_refl eq_refl)
    as (_ & _ & _ & Hf & _ & Hp & _).
  split; [subst w'; rewrite Hp; [reflexivity|by exists 1, 0%nat]|].
  repeat split; reflexivity.
Defined.

(** ** Futures and calls are settled once *)

Lemma insert_keeps {A} (P : A → bool) (l : list A) (i : nat) (x y : A) :
  l !! i = Some y → P y = false →
  ∀ j z, l !! j = Some z → P z = true → <[i := x]> l !! j = Some z.
Proof.
  intros Hi Hy j z Hj Hz. destruct (decide (i = j)) as [->|Hne].
  - congruence.
  - by rewrite list_lookup_insert_ne.
Qed.

Lemma settled_stays_refl (w : world) : settled_stays w w.
Proof. by split. Qed.

Lemma settled_stays_trans (w1 w2 w3 : world) :
  settled_stays w1 w2 → settled_stays w2 w3 → settled_stays w1 w3.
Proof. intros [H1 H2] [H3 H4]. split; eauto. Qed.

Lemma handle_message_done (msg : json) (w : world) (fut : nat) (f : future) :
  futs w !! fut = Some f → done f = true →
  futs (world_of (handle_message msg w)) !! fut = Some f.
Proof.
  intros Hf Hd. unfold handle_message.
  repeat case_match; cbn [world_of]; rewrite ?dispatch_tasks;
    cbn [futs set_future set_futs set_tasks with_self] in *; try done;
    by eapply (insert_keeps done); eauto.
Qed.

Lemma recv_step_settled (w : world) (ev : event) :
  is_recv ev → settled_stays w (step w ev).
Proof.
  intros Hr. split.
  - intros fut f Hf Hd.
    assert (∀ w0, futs (world_of (recv_finally w0)) = futs w0) as Hfin.
    { intros w0. by destruct (recv_finally_frame w0) as (_ & _ & _ & _ & _ & ->). }
    destruct ev; try done; cbn [step]; unfold recv, recv_malformed, recv_end, recv_abort;
      destruct (tasks w !! t) as [[[]|]|]; try done.
    + pose proof (handle_message_done msg w fut f Hf Hd) as Hh.
      destruct (handle_message msg w) as [w'|e w']; cbn [world_of] in Hh; [done|].
      cbn [futs set_task set_tasks close_sock set_socks]. by rewrite Hfin.
    + cbn [futs set_task set_tasks close_sock set_socks]. by rewrite Hfin.
    + destruct (is_open s w); [done|].
      cbn [futs set_task set_tasks]. by rewrite Hfin.
  - intros c st Hc _. by destruct (recv_step_frame w ev Hr) as (_ & -> & _).
Qed.

Lemma step_settled (w : world) (ev : event) : settled_stays w (step w ev).
Proof.
  destruct (decide (is_recv ev)) as [Hr|Hr]; [by apply recv_step_settled|].
  destruct ev; simpl in Hr; try tauto; cbn [step];
    unfold start, stop, on, call_ready, call_enter, send_done, send_fail, resume,
      timeout, loop_test, connected, connect_failed, close_sock;
    repeat case_match; try apply settled_stays_refl;
    (split;
     [ intros fut' f' Hf' Hd';
       cbn [futs set_calls set_futs set_wire with_self set_task set_tasks set_socks
              create_task] in *;
       first [ done
             | by apply lookup_app_l_Some
             | by eapply (insert_keeps done); eauto ]
     | intros c' st' Hc' Hfin';
       cbn [calls set_calls set_futs set_wire with_self set_task set_tasks set_socks
              create_task] in *;
       first [ done
             | by apply lookup_app_l_Some
             | by eapply (insert_keeps finished); eauto ] ]).
Qed.

Lemma run_settled (evs : list event) (w : world) : settled_stays w (run w evs).
Proof.
  revert w. induction evs as [|ev evs IH]; intros w; [apply settled_stays_refl|].
  eapply settled_stays_trans; [apply (step_settled w ev) | apply IH].
Qed.

(** X5. Every future and every call is settled at most once: along any
    execution a future that is done (result, exception or cancelled) keeps
    that state for ever, and a call that has returned or raised keeps its
    outcome. *)
Theorem settled_exactly_once (w : world) (evs : list event) (fut c : nat)
    (f : future) (st : call_state) :
  (futs w !! fut = Some f → done f = true → futs (run w evs) !! fut = Some f)
  ∧ (calls w !! c = Some st → finished st = true → calls (run w evs) !! c = Some st).
Proof. destruct (run_settled evs w) as [H1 H2]. split; eauto. Qed.

Lemma settled_exactly_once_witness :
  let w := run boot [Start; LoopTest 0; Connected 0; Call "m" JNull; Enter 0; SendDone 0;
                     Timeout 0] in
  let evs := [Recv 0 (JDict [("id", JNum 1); ("result", JStr "late")]); Resume 0;
              Drop 0; RecvEnd 0; LoopTest 0; Connected 0] in
  futs (run w evs) !! 0%nat = Some Cancelled
  ∧ calls (run w evs) !! 0%nat = Some (Raised TimeoutError).
Proof.
  intros w evs.
  destruct (settled_exactly_once w evs 0 0 Cancelled (Raised TimeoutError)) as [H1 H2].
  split; [exact (H1 eq_refl eq_refl) | exact (H2 eq_refl eq_refl)].
Defined.

(** ** The critical section *)

Lemma lock_inv_step (w : world) (ev : event) :
  wire_inv w → lock_inv w → lock_inv (step w ev).
Proof.
  intros Hw Hl.
  destruct (decide (is_call_step ev)) as [Hc|Hc].
  - destruct ev; simpl in Hc; try tauto; cbn [step].
    + unfold call_ready. destruct (_wait_ready w); [|done].
      intros Hlock. destruct (Hl Hlock) as (c & r & f & q & s & Hs).
      exists c, r, f, q, s. cbn [calls set_calls]. by apply lookup_app_l_Some.
    + unfold call_enter.
      destruct (calls w !! c) as [[method params| | | |]|] eqn:Hcc; try done.
      destruct (_lock (self w)) eqn:Hlk; [done|].
      cbn [self with_self set_futs set_pending set_rid ws].
      destruct (ws (self w)) as [s|]; [|by intros ?; simpl in *; congruence].
      intros _. eexists c, _, _, _, _. cbn [calls set_calls with_self set_futs].
      apply list_lookup_insert_eq. by eapply lookup_lt_Some.
    + unfold send_done. by repeat case_match.
    + unfold send_fail. by repeat case_match.
    + unfold resume.
      destruct (calls w !! c) as [[| | fut | |]|] eqn:Hcc; try done.
      destruct (futs w !! fut) as [[]|]; try done;
        (intros Hlock; destruct (Hl Hlock) as (c' & r & f & q & s & Hs);
         exists c', r, f, q, s; cbn [calls set_calls];
         rewrite list_lookup_insert_ne; [done | congruence]).
    + unfold timeout.
      destruct (calls w !! c) as [[| | fut | |]|] eqn:Hcc; try done.
      destruct (futs w !! fut) as [[]|]; try done.
      intros Hlock. destruct (Hl Hlock) as (c' & r & f & q & s & Hs).
      exists c', r, f, q, s. cbn [calls set_calls set_futs].
      rewrite list_lookup_insert_ne; [done | congruence].
  - destruct (other_step_frame w ev Hc) as (_ & Hlk & Hcalls & _).
    unfold lock_inv. by rewrite Hlk, Hcalls.
Qed.

Lemma lock_inv_run (evs : list event) (w : world) :
  wire_inv w → lock_inv w → lock_inv (run w evs).
Proof.
  revert w. induction evs as [|ev evs IH]; intros w Hw Hl; [done|].
  apply (IH (step w ev)); [by apply wire_inv_step | by apply lock_inv_step].
Qed.

(** X6. In every state the client reaches, at most one call is inside
    [async with self._lock] (between taking its id and the end of
    [ws.send]), and the lock is held exactly when there is one. *)
Theorem critical_section_exclusive (evs : list event) :
  let w := run boot evs in
  (∀ c c' rid fut req s rid' fut' req' s',
     calls w !! c = Some (Sending rid fut req s) →
     calls w !! c' = Some (Sending rid' fut' req' s') → c = c')
  ∧ (_lock (self w) = true ↔ ∃ c rid fut req s, calls w !! c = Some (Sending rid fut req s)).
Proof.
  intros w.
  pose proof (wire_inv_run evs boot wire_inv_boot) as Hinv.
  pose proof (lock_inv_run evs boot wire_inv_boot ltac:(done)) as Hlock.
  split; [apply (inv_single _ Hinv)|]. split; [apply Hlock|].
  intros (c & rid & fut & req & s & Hs).
  by destruct (inv_sending _ Hinv _ _ _ _ _ Hs) as (? & _).
Qed.

(** ** [stop] *)

Lemma handle_message_tasks (msg : json) (w : world) (t : nat) (co : task) :
  tasks w !! t = Some co → tasks (world_of (handle_message msg w)) !! t = Some co.
Proof.
  intros Ht. unfold handle_message.
  repeat case_match; cbn [world_of]; rewrite ?dispatch_tasks;
    cbn [tasks set_future set_futs set_tasks with_self]; try done.
  by apply lookup_app_l_Some.
Qed.

(** A [_run] task that has left its loop is never resumed. *)
Lemma exited_step (w : world) (ev : event) (t : nat) :
  tasks w !! t = Some (TRun Exited) → tasks (step w ev) !! t = Some (TRun Exited).
Proof.
  intros Ht.
  assert (∀ t' ph co w', tasks w' !! t = Some (TRun Exited) →
            tasks w' !! t' = Some (TRun ph) → ph ≠ Exited →
            <[t' := co]> (tasks w') !! t = Some (TRun Exited)) as Hset.
  { intros t' ph co w' Ht0 Ht' Hph. rewrite list_lookup_insert_ne; [done|].
    intros ->. congruence. }
  destruct (decide (is_recv ev)) as [Hr|Hr].
  { destruct ev as [ | | | | | | | | | | | | t' msg | t' | t' | ]; try done; cbn [step];
      unfold recv, recv_malformed, recv_end, recv_abort;
      destruct (tasks w !! t') as [[[| |s|]|]|] eqn:Ht'; try done.
    - pose proof (handle_message_tasks msg w t _ Ht) as Hh.
      pose proof (handle_message_tasks msg w t' _ Ht') as Hh'.
      destruct (handle_message msg w) as [w1|e w1]; cbn [world_of] in *; [done|].
      cbn [tasks set_task set_tasks close_sock set_socks].
      destruct (recv_finally_frame w1) as (_ & _ & _ & _ & -> & _).
      by eapply Hset.
    - cbn [tasks set_task set_tasks close_sock set_socks].
      destruct (recv_finally_frame w) as (_ & _ & _ & _ & -> & _). by eapply Hset.
    - destruct (is_open s w); [done|].
      cbn [tasks set_task set_tasks].
      destruct (recv_finally_frame w) as (_ & _ & _ & _ & -> & _). by eapply Hset. }
  destruct ev; simpl in Hr; try tauto; cbn [step];
    unfold start, stop, on, call_ready, call_enter, send_done, send_fail, resume,
      timeout, loop_test, connected, connect_failed, close_sock;
    repeat case_match;
    cbn [tasks set_calls set_futs set_wire with_self set_task set_tasks set_socks
           create_task];
    try done;
    try (by apply lookup_app_l_Some);
    by eapply Hset; eauto.
Qed.

Lemma exited_run (evs : list event) (w : world) (t : nat) :
  tasks w !! t = Some (TRun Exited) → tasks (run w evs) !! t = Some (TRun Exited).
Proof.
  revert w. induction evs as [|ev evs IH]; intros w Ht; [done|].
  apply (IH (step w ev)). by apply exited_step.
Qed.

(** X7. [stop()] while the receive loop runs on the current socket: once the
    loop has noticed the close and [_run] has tested its flag again, the
    socket is closed and the [_run] task has exited for good: no later step
    resumes it.  [stop()] fails no call: futures and calls are as they were.
    A call still waiting keeps its entry in the table, the [finally] block
    raising before [self._pending.clear()]; the table is emptied when no
    entry has a future that is not done. *)
Theorem stop_ends_loop (w : world) (t s : nat) (evs : list event) :
  tasks w !! t = Some (TRun (Receiving s)) → ws (self w) = Some s →
  let w' := run w [Stop; RecvEnd t; LoopTest t] in
  _running (self w') = false
  ∧ is_open s w' = false
  ∧ futs w' = futs w
  ∧ calls w' = calls w
  ∧ (awaited w → _pending (self w') = _pending (self w))
  ∧ (¬ awaited w → _pending (self w') = ∅)
  ∧ tasks w' !! t = Some (TRun Exited)
  ∧ tasks (run w' evs) !! t = Some (TRun Exited).
Proof.
  intros Ht Hws w'.
  pose proof (lookup_lt_Some _ _ _ Ht) as Hlt.
  remember (stop w) as w1 eqn:Ew1.
  assert (w1 = close_sock s (with_self (set_running false) w)) as Hw1.
  { rewrite Ew1. unfold stop. cbn [self with_self set_running ws]. by rewrite Hws. }
  assert (is_open s w1 = false) as Hclosed by (rewrite Hw1; apply close_sock_closed).
  assert (tasks w1 = tasks w ∧ futs w1 = futs w ∧ _pending (self w1) = _pending (self w)
          ∧ _running (self w1) = false ∧ calls w1 = calls w)
    as (Ht1 & Hf1 & Hp1 & Hr1 & Hc1) by (by rewrite Hw1).
  assert (awaited w1 ↔ awaited w) as Haw.
  { unfold awaited. by rewrite Hp1, Hf1. }
  remember (recv_end t w1) as w2 eqn:Ew2.
  assert (w2 = set_task t (TRun LoopTop) (world_of (recv_finally w1))) as Hw2.
  { rewrite Ew2. unfold recv_end. by rewrite Ht1, Ht, Hclosed. }
  destruct (recv_finally_frame w1) as (Hout & Hsocks & Hcalls & _ & Htasks & Hfuts).
  apply outside_pending_fields in Hout as (_ & _ & _ & _ & Hrun & _).
  assert (tasks w2 !! t = Some (TRun LoopTop)) as Ht2.
  { rewrite Hw2. cbn [tasks set_task set_tasks]. rewrite Htasks, Ht1.
    by apply list_lookup_insert_eq. }
  assert (_running (self w2) = false) as Hr2.
  { rewrite Hw2. cbn [self set_task set_tasks]. congruence. }
  assert (w' = set_task t (TRun Exited) w2) as Hw'.
  { subst w'. change (run w [Stop; RecvEnd t; LoopTest t])
      with (loop_test t (recv_end t (stop w))).
    rewrite <- Ew1, <- Ew2. unfold loop_test. by rewrite Ht2, Hr2. }
  assert (tasks w' !! t = Some (TRun Exited)) as Hexit.
  { rewrite Hw'. cbn [tasks set_task set_tasks]. apply list_lookup_insert_eq.
    by eapply lookup_lt_Some. }
  clearbody w'.
  split; [by rewrite Hw'|].
  split.
  { rewrite Hw', Hw2. unfold is_open in *. cbn [socks set_task set_tasks].
    by rewrite Hsocks. }
  split; [rewrite Hw', Hw2; cbn [futs set_task set_tasks]; congruence|].
  split; [rewrite Hw', Hw2; cbn [calls set_task set_tasks]; congruence|].
  split; [|split; [|split; [exact Hexit | by apply exited_run]]];
    intros Haw'; rewrite Hw', Hw2; cbn [self set_task set_tasks];
    destruct (recv_finally_cases w1) as [[Haw1 ->]|[Haw1 ->]];
    cbn [world_of self with_self set_pending _pending]; try done; tauto.
Qed.

Lemma stop_ends_loop_witness :
  let w := run boot [Start; LoopTest 0; Connected 0; Call "m" JNull; Enter 0; SendDone 0] in
  let w' := run w [Stop; RecvEnd 0; LoopTest 0] in
  tasks w' !! 0%nat = Some (TRun Exited)
  ∧ tasks (run w' [LoopTest 0; Connected 0; Drop 0; RecvEnd 0]) !! 0%nat = Some (TRun Exited)
  ∧ futs w' = [Pending]
  ∧ size (_pending (self w')) = 1%nat.
Proof.
  intros w w'.
  destruct (stop_ends_loop w 0 0 [LoopTest 0; Connected 0; Drop 0; RecvEnd 0]
              eq_refl eq_refl) as (_ & _ & Hf & _ & Hp & _ & H1 & H2).
  split; [exact H1|]. split; [exact H2|].
  split; [subst w'; rewrite Hf; reflexivity|].
  subst w'. rewrite Hp; [reflexivity | by exists 1, 0%nat].
Defined.

(** X8. [stop()] while [_run] is inside [connect(...)] does not stop it: the
    flag is only tested at the top of the loop, so the connection is
    completed, [self.ws] is the new open socket, and the task is receiving
    on it although [_running] is false; calls get past [_wait_ready]. *)
Theorem stop_while_connecting (w : world) (t : nat) :
  tasks w !! t = Some (TRun Connecting) →
  let w' := run w [Stop; Connected t] in
  let s' := length (socks w) in
  _running (self w') = false
  ∧ ws (self w') = Some s'
  ∧ is_open s' w' = true
  ∧ tasks w' !! t = Some (TRun (Receiving s'))
  ∧ _wait_ready w' = true
  ∧ loop_test t w' = w'.
Proof.
  intros Ht w' s'.
  pose proof (lookup_lt_Some _ _ _ Ht) as Hlt.
  assert (tasks (stop w) = tasks w ∧ length (socks (stop w)) = s'
          ∧ _running (self (stop w)) = false) as (Ht1 & Hs1 & Hr1).
  { unfold stop. cbn [self with_self set_running ws].
    destruct (ws (self w)); cbn; by rewrite ?length_insert. }
  assert (w' = set_task t (TRun (Receiving s'))
                 (with_self (set_ws (Some s'))
                    (set_socks (socks (stop w) ++ [false]) (stop w)))) as Hw'.
  { subst w'. change (run w [Stop; Connected t]) with (connected t (stop w)).
    unfold connected. by rewrite Ht1, Ht, Hs1. }
  assert (is_open s' w' = true) as Hopen.
  { rewrite Hw'. unfold is_open. cbn [socks set_task set_tasks with_self set_socks].
    rewrite lookup_app_r by lia. by rewrite Hs1, Nat.sub_diag. }
  assert (tasks w' !! t = Some (TRun (Receiving s'))) as Htask.
  { rewrite Hw'. cbn [tasks set_task set_tasks with_self set_socks].
    apply list_lookup_insert_eq. by rewrite Ht1. }
  split; [by rewrite Hw'|]. split; [by rewrite Hw'|]. split; [exact Hopen|].
  split; [exact Htask|]. split.
  - unfold _wait_ready. rewrite Hw' at 1. cbn [self ws set_task set_tasks with_self set_ws].
    exact Hopen.
  - unfold loop_test. by rewrite Htask.
Qed.

Lemma stop_while_connecting_witness :
  let w := run boot [Start; LoopTest 0] in
  let w' := run w [Stop; Connected 0] in
  _running (self w') = false ∧ tasks w' = [TRun (Receiving 0)] ∧ socks w' = [false].
Proof.
  intros w w'.
  destruct (stop_while_connecting w 0 eq_refl) as (H1 & _).
  split; [exact H1|]. split; reflexivity.
Defined.

(** ** The table of pending requests *)

Lemma pending_inv_boot : pending_inv boot.
Proof. split; try done. Qed.

Lemma pending_inv_shrink (w w' : world) :
  (∀ rid fut, _pending (self w') !! rid = Some fut → _pending (self w) !! rid = Some fut) →
  _rid (self w') = _rid (self w) → length (futs w') = length (futs w) →
  pending_inv w → pending_inv w'.
Proof.
  intros Hsub Hr Hl [H1 H2 H3 H4].
  split; rewrite ?Hr, ?Hl; eauto.
Qed.

Lemma recv_finally_pending_inv (w : world) :
  pending_inv w → pending_inv (world_of (recv_finally w)).
Proof.
  intros Hinv. destruct (recv_finally_world w) as [->| ->]; [done|].
  by apply (pending_inv_shrink w).
Qed.

Lemma handle_message_pending_inv (msg : json) (w : world) :
  pending_inv w → pending_inv (world_of (handle_message msg w)).
Proof.
  intros Hinv. apply (pending_inv_shrink w); [| | |done]; unfold handle_message;
    repeat case_match; cbn [world_of]; rewrite ?dispatch_tasks;
    cbn [self futs _pending _rid set_future set_futs set_tasks with_self set_pending];
    rewrite ?length_insert; try done.
  all: intros rid' fut'; rewrite lookup_delete_Some; by intros [_ ?].
Qed.

Lemma pending_inv_call_enter (w : world) (c : nat) :
  pending_inv w → pending_inv (call_enter c w).
Proof.
  intros [H1 H2 H3 H4]. unfold call_enter.
  destruct (calls w !! c) as [[method params| | | |]|]; try done.
  destruct (_lock (self w)); [done|].
  cbn [self with_self set_futs set_pending set_rid ws].
  assert (pending_inv
            (with_self (fun c0 => set_pending (<[_rid (self w) + 1 := length (futs w)]>
                                                 (_pending c0))
                                    (set_rid (_rid (self w) + 1) c0))
               (set_futs (futs w ++ [Pending]) w))) as Hnew.
  { split; cbn [self futs with_self set_futs set_pending set_rid _pending _rid];
      rewrite ?length_app; cbn [length].
    - intros rid fut [[<- <-]|[Hne Hold]]%lookup_insert_Some; [lia|].
      specialize (H1 _ _ Hold). lia.
    - intros rid fut [[<- <-]|[Hne Hold]]%lookup_insert_Some; [lia|].
      specialize (H2 _ _ Hold). lia.
    - intros rid rid' fut [[<- <-]|[Hne Hold]]%lookup_insert_Some
        [[<- Heq]|[Hne' Hold']]%lookup_insert_Some; try done.
      + specialize (H2 _ _ Hold'). lia.
      + specialize (H2 _ _ Hold). lia.
      + by eapply H3.
    - lia. }
  destruct (ws (self w)); (eapply pending_inv_shrink; [| | |exact Hnew]); done.
Qed.

Lemma pending_inv_step (w : world) (ev : event) : pending_inv w → pending_inv (step w ev).
Proof.
  intros Hinv.
  destruct (decide (is_recv ev)) as [Hr|Hr].
  { destruct ev as [ | | | | | | | | | | | | t msg | t | t | ]; try done; cbn [step];
      unfold recv, recv_malformed, recv_end, recv_abort;
      destruct (tasks w !! t) as [[[| |s|]|]|]; try done.
    - pose proof (handle_message_pending_inv msg w Hinv) as Hh.
      destruct (handle_message msg w) as [w1|e w1]; cbn [world_of] in Hh; [done|].
      eapply pending_inv_shrink; [| | |exact (recv_finally_pending_inv w1 Hh)]; done.
    - eapply pending_inv_shrink; [| | |exact (recv_finally_pending_inv w Hinv)]; done.
    - destruct (is_open s w); [done|].
      eapply pending_inv_shrink; [| | |exact (recv_finally_pending_inv w Hinv)]; done. }
  destruct ev; simpl in Hr; try tauto; cbn [step];
    try (by apply pending_inv_call_enter);
    (eapply pending_inv_shrink; [| | |exact Hinv]);
    unfold start, stop, on, call_ready, send_done, send_fail, resume,
      timeout, loop_test, connected, connect_failed, close_sock;
    repeat case_match;
    cbn [self futs _pending _rid set_calls set_futs set_wire with_self set_task set_tasks
           set_socks create_task set_running set_reader_task set_subs set_lock set_ws];
    rewrite ?length_insert; done.
Qed.

Lemma pending_inv_run (evs : list event) (w : world) :
  pending_inv w → pending_inv (run w evs).
Proof.
  revert w. induction evs as [|ev evs IH]; intros w Hinv; [done|].
  apply (IH (step w ev)). by apply pending_inv_step.
Qed.

(** X9. In every state the client reaches, each entry of [_pending] is keyed
    by an id already assigned (between 1 and [_rid]), refers to a future that
    exists, and no two entries share a future. *)
Theorem pending_table_well_formed (evs : list event) :
  let w := run boot evs in
  (∀ rid fut, _pending (self w) !! rid = Some fut →
     0 < rid ≤ _rid (self w) ∧ is_Some (futs w !! fut))
  ∧ (∀ rid rid' fut, _pending (self w) !! rid = Some fut →
       _pending (self w) !! rid' = Some fut → rid = rid').
Proof.
  intros w.
  pose proof (pending_inv_run evs boot pending_inv_boot) as [H1 H2 H3 _].
  split; [|exact H3].
  intros rid fut Hp. split; [by eapply H1|].
  apply lookup_lt_is_Some. by eapply H2.
Qed.

(** * The whitelist record *)

#[local] Set Warnings "-clear-no-such-hyp".

Section ODictFacts.
Context {V : Type}.
Implicit Types (d : list (string * V)) (k : string) (v : V).

Lemma odict_get_set_eq d k v : ODict.get k (ODict.set k v d) = Some v.
Proof.
  induction d as [|[k' v'] d IH]; simpl.
  - by rewrite decide_True.
  - destruct (decide (k = k')) as [->|Hne]; simpl.
    + by rewrite decide_True.
    + by rewrite decide_False.
Qed.

Lemma odict_get_set_ne d k k' v : k ≠ k' → ODict.get k' (ODict.set k v d) = ODict.get k' d.
Proof.
  intros Hne. induction d as [|[k0 v0] d IH]; simpl.
  - by rewrite decide_False.
  - destruct (decide (k = k0)) as [->|Hne0]; simpl.
    + by rewrite !decide_False.
    + destruct (decide (k' = k0)); done.
Qed.

Lemma odict_get_None d k : ODict.get k d = None ↔ k ∉ d.*1.
Proof.
  induction d as [|[k' v'] d IH]; simpl.
  - split; [|done]. intros _ Hin. by apply elem_of_nil in Hin.
  - destruct (decide (k = k')) as [->|Hne].
    + split; [done|]. intros Hnin. destruct Hnin. by left.
    + rewrite IH. rewrite not_elem_of_cons. naive_solver.
Qed.

Lemma odict_set_fresh d k v : k ∉ d.*1 → ODict.set k v d = d ++ [(k, v)].
Proof.
  induction d as [|[k' v'] d IH]; simpl; [done|].
  intros [Hne Hnin]%not_elem_of_cons.
  rewrite decide_False by done. by rewrite IH.
Qed.

Lemma odict_set_keys d k v :
  (ODict.set k v d).*1 = if decide (k ∈ d.*1) then d.*1 else d.*1 ++ [k].
Proof.
  induction d as [|[k' v'] d IH].
  - destruct (decide (k ∈ ([] : list (string * V)).*1)) as [Hin|_]; [|done].
    by apply elem_of_nil in Hin.
  - cbn [ODict.set]. rewrite !fmap_cons. cbn [fst].
    destruct (decide (k = k')) as [->|Hne].
    + rewrite fmap_cons. cbn [fst].
      destruct (decide (k' ∈ k' :: d.*1)) as [_|Hnin]; [done|].
      destruct Hnin. by left.
    + rewrite fmap_cons. cbn [fst]. rewrite IH.
      destruct (decide (k ∈ d.*1)) as [Hin|Hnin];
        destruct (decide (k ∈ k' :: d.*1)) as [Hin'|Hnin']; try done.
      * destruct Hnin'. by right.
      * apply elem_of_cons in Hin' as [?|?]; done.
Qed.

Lemma odict_set_NoDup d k v : NoDup d.*1 → NoDup (ODict.set k v d).*1.
Proof.
  intros Hnd. rewrite odict_set_keys. destruct (decide _); [done|].
  apply NoDup_app. split; [done|]. split; [|apply NoDup_singleton].
  intros x Hx ->%list_elem_of_singleton. done.
Qed.

Lemma odict_of_items_fresh (items acc : list (string * V)) :
  NoDup (acc ++ items).*1 →
  foldl (fun d kv => ODict.set kv.1 kv.2 d) acc items = acc ++ items.
Proof.
  revert acc. induction items as [|[k v] items IH]; intros acc Hnd; simpl.
  - by rewrite app_nil_r.
  - rewrite odict_set_fresh.
    + rewrite IH; rewrite <- app_assoc; done.
    + rewrite fmap_app in Hnd. apply NoDup_app in Hnd as (_ & Hdisj & _).
      intros Hin. apply (Hdisj k Hin). by left.
Qed.

Lemma odict_of_items_NoDup (items : list (string * V)) :
  NoDup items.*1 → ODict.of_items items = items.
Proof. intros Hnd. unfold ODict.of_items. by rewrite odict_of_items_fresh. Qed.

Lemma odict_of_items_keys (items : list (string * V)) : NoDup (ODict.of_items items).*1.
Proof.
  unfold ODict.of_items.
  assert (∀ acc : list (string * V), NoDup acc.*1 →
            NoDup (foldl (fun d kv => ODict.set kv.1 kv.2 d) acc items).*1) as Hgen.
  { induction items as [|[k v] items IH]; intros acc Hnd; [done|].
    cbn [foldl]. apply IH. by apply odict_set_NoDup. }
  apply Hgen. constructor.
Qed.

End ODictFacts.

#[global] Instance str_le_total : Total str_le.
Proof. intros x y. apply String.leb_total. Qed.

Lemma sorted_elem (names : gset string) (n : string) : n ∈ sorted names ↔ n ∈ names.
Proof. unfold sorted. rewrite merge_sort_Permutation. apply elem_of_elements. Qed.

Lemma sorted_NoDup (names : gset string) : NoDup (sorted names).
Proof. unfold sorted. rewrite merge_sort_Permutation. apply NoDup_elements. Qed.

Lemma str_set_strings (l : list string) : str_set (JStr <$> l) = Some (list_to_set l).
Proof.
  induction l as [|s l IH]; [done|].
  rewrite fmap_cons. cbn [str_set]. by rewrite IH.
Qed.

Lemma str_set_sorted (names : gset string) :
  str_set (JStr <$> sorted names) = Some names.
Proof.
  rewrite str_set_strings. f_equal. apply set_eq. intros n.
  by rewrite elem_of_list_to_set, sorted_elem.
Qed.

Lemma py_eq_absent (s : string) (acc : list string) :
  s ∉ acc → existsb (py_eq (JStr s)) (JStr <$> acc) = false.
Proof.
  induction acc as [|s' acc IH]; [done|].
  intros [Hne Hnin]%not_elem_of_cons. rewrite fmap_cons. cbn [existsb py_eq].
  by rewrite bool_decide_eq_false_2, IH.
Qed.

Lemma py_set_strings (l acc : list string) :
  NoDup (acc ++ l) → py_set (JStr <$> l) (JStr <$> acc) = inr (JStr <$> (acc ++ l)).
Proof.
  revert acc. induction l as [|s l IH]; intros acc Hnd.
  - by rewrite app_nil_r.
  - rewrite fmap_cons. cbn [py_set hashable].
    rewrite py_eq_absent.
    + replace ((JStr <$> acc) ++ [JStr s]) with (JStr <$> (acc ++ [s]))
        by (by rewrite fmap_app).
      rewrite IH; rewrite <- app_assoc; done.
    + apply NoDup_app in Hnd as (_ & Hdisj & _).
      intros Hin. apply (Hdisj s Hin). by left.
Qed.

Lemma py_set_sorted (names : gset string) :
  py_set (JStr <$> sorted names) [] = inr (JStr <$> sorted names).
Proof. apply (py_set_strings (sorted names) []), sorted_NoDup. Qed.

Lemma load_items_saved (W : list (string * gset string)) (acc : list (string * list json)) :
  NoDup (acc.*1 ++ W.*1) →
  load_items ((fun '(uid, names) => (uid, JList (JStr <$> sorted names))) <$> W) acc
  = inr (acc ++ ((fun '(uid, names) => (uid, JStr <$> sorted names)) <$> W)).
Proof.
  revert acc. induction W as [|[uid names] W IH]; intros acc Hnd.
  - simpl. by rewrite app_nil_r.
  - rewrite !fmap_cons. cbn [load_items fst] in *. rewrite py_set_sorted, odict_set_fresh.
    + rewrite IH; [by rewrite <- app_assoc|].
      rewrite fmap_app. cbn [fmap list_fmap fst]. by rewrite <- app_assoc.
    + apply NoDup_app in Hnd as (_ & Hdisj & _).
      intros Hin. apply (Hdisj uid Hin). by left.
Qed.

Lemma str_sets_saved (W : list (string * gset string)) :
  str_sets ((fun '(uid, names) => (uid, JStr <$> sorted names)) <$> W) = Some W.
Proof.
  induction W as [|[uid names] W IH]; [done|].
  rewrite fmap_cons. cbn [str_sets]. by rewrite str_set_sorted, IH.
Qed.

Lemma saved_keys (W : list (string * gset string)) :
  ((fun '(uid, names) => (uid, JList (JStr <$> sorted names))) <$> W).*1 = W.*1.
Proof.
  induction W as [|[uid names] W IH]; [done|].
  rewrite !fmap_cons. cbn [fst]. by rewrite IH.
Qed.

Lemma save_then_load (W : list (string * gset string)) :
  NoDup W.*1 → load_whitelist_data (save_whitelist_data W) = Loaded W.
Proof.
  intros Hnd. unfold save_whitelist_data, load_whitelist_data. cbv zeta.
  rewrite !(odict_of_items_NoDup (_ <$> W)) by (by rewrite saved_keys).
  rewrite (load_items_saved W []) by done.
  by rewrite app_nil_l, str_sets_saved.
Qed.

(** X10. Saving and loading again gives back the record: for a dict (no user
    id twice), [load_whitelist_data] on the file [save_whitelist_data] wrote
    binds [USER_WHITELISTS] to the same users, in the same order, with the
    same sets of names (empty sets included). *)
Theorem whitelist_save_load (W : list (string * gset string)) :
  NoDup W.*1 → load_whitelist_data (save_whitelist_data W) = Loaded W.
Proof.
  intros Hnd. unfold save_whitelist_data, load_whitelist_data. cbv zeta.
  rewrite !(odict_of_items_NoDup (_ <$> W)) by (by rewrite saved_keys).
  rewrite (load_items_saved W []) by done.
  by rewrite app_nil_l, str_sets_saved.
Qed.

Lemma whitelist_save_load_witness :
  let W := [("10001", {[ "Steve"; "Alex" ]}); ("10002", ∅)] : list (string * gset string) in
  load_whitelist_data (save_whitelist_data W) = Loaded W.
Proof.
  intros W. apply whitelist_save_load.
  subst W. cbn [fmap list_fmap fst]. by apply (bool_decide_unpack _).
Defined.

Lemma load_items_filter (items : list (string * json)) (acc : list (string * list json)) :
  load_items (filter (fun kv : string * json => is_list kv.2 = true) items) acc
  = load_items items acc.
Proof.
  revert acc. induction items as [|[uid v] items IH]; intros acc; [done|].
  destruct v; rewrite ?filter_cons_True by done; rewrite ?filter_cons_False by done;
    cbn [load_items]; try apply IH.
  destruct (py_set l []); [done | apply IH].
Qed.

Lemma load_items_keys (items : list (string * json)) (acc R : list (string * list json)) :
  load_items items acc = inr R → NoDup (acc.*1 ++ items.*1) →
  R.*1 = acc.*1 ++ (filter (fun kv : string * json => is_list kv.2 = true) items).*1.
Proof.
  revert acc. induction items as [|[uid v] items IH]; intros acc Hload Hnd.
  - injection Hload as <-. by rewrite app_nil_r.
  - assert (NoDup (acc.*1 ++ items.*1)) as Hnd'.
    { rewrite fmap_cons in Hnd. cbn [fst] in Hnd.
      apply NoDup_app in Hnd as (Ha & Hdisj & Hi). apply NoDup_app.
      split; [done|]. split; [|by apply NoDup_cons in Hi as [_ ?]].
      intros k Hk Hin. apply (Hdisj k Hk). by right. }
    destruct v; rewrite ?filter_cons_True by done; rewrite ?filter_cons_False by done;
      cbn [load_items] in Hload; try (by apply IH).
    destruct (py_set l []) as [e|members]; [done|].
    rewrite fmap_cons in Hnd. cbn [fst] in Hnd.
    assert (uid ∉ acc.*1) as Hfresh.
    { apply NoDup_app in Hnd as (_ & Hdisj & _).
      intros Hin. apply (Hdisj uid Hin). by left. }
    rewrite odict_set_fresh in Hload by done.
    rewrite (IH _ Hload); rewrite fmap_app; cbn [fmap list_fmap fst];
      rewrite <- app_assoc; done.
Qed.

Lemma py_set_raises (names acc : list json) (e : exn) :
  py_set names acc = inl e → e = TypeError ∧ ∃ v, v ∈ names ∧ hashable v = false.
Proof.
  revert acc. induction names as [|v names IH]; intros acc Hs; [done|].
  cbn [py_set] in Hs. destruct (hashable v) eqn:Hv.
  - destruct (IH _ Hs) as (-> & v' & Hin & Hv'). split; [done|].
    exists v'. split; [by right | done].
  - injection Hs as <-. split; [done|]. exists v. split; [by left | done].
Qed.

Lemma load_items_raises (items : list (string * json)) (acc : list (string * list json))
    (e : exn) :
  load_items items acc = inl e →
  e = TypeError ∧ ∃ uid l v, (uid, JList l) ∈ items ∧ v ∈ l ∧ hashable v = false.
Proof.
  revert acc. induction items as [|[uid v] items IH]; intros acc Hload; [done|].
  assert (∀ acc', load_items items acc' = inl e →
            e = TypeError
            ∧ ∃ uid0 l v0, (uid0, JList l) ∈ (uid, v) :: items ∧ v0 ∈ l
                           ∧ hashable v0 = false) as Hrest.
  { intros acc' Hl. destruct (IH _ Hl) as (-> & u & l & v0 & Hin & Hv & Hh).
    split; [done|]. exists u, l, v0. split; [by right | done]. }
  destruct v; cbn [load_items] in Hload; try (by eapply Hrest).
  destruct (py_set l []) as [e'|members] eqn:Hs; [|by eapply Hrest].
  injection Hload as <-. destruct (py_set_raises _ _ _ Hs) as (-> & v0 & Hv & Hh).
  split; [done|]. exists uid, l, v0. split; [by left | done].
Qed.

Lemma str_sets_keys (R : list (string * list json)) (W : list (string * gset string)) :
  str_sets R = Some W → W.*1 = R.*1.
Proof.
  revert W. induction R as [|[uid names] R IH]; intros W HW.
  - by injection HW as <-.
  - cbn [str_sets] in HW. destruct (str_set names); [|done].
    destruct (str_sets R) as [W'|]; [|done]. injection HW as <-.
    rewrite !fmap_cons. cbn [fst]. by rewrite (IH W').
Qed.

Lemma filter_keys_NoDup (raw : list (string * json)) (P : string * json → bool) :
  NoDup raw.*1 → NoDup (filter (fun kv => P kv = true) raw).*1.
Proof.
  intros Hnd. eapply sublist_NoDup; [exact Hnd|].
  apply fmap_sublist, sublist_filter.
Qed.

(** What [load_whitelist_data] makes of a JSON object, in terms of the dict
    [raw] that [json.load] returns and of its entries with a list. *)
Lemma load_object (pairs : list (string * json)) :
  let raw := ODict.of_items pairs in
  let lists := filter (fun kv : string * json => is_list kv.2 = true) raw in
  NoDup lists.*1
  ∧ load_whitelist_data (Json (JDict lists)) = load_whitelist_data (Json (JDict pairs))
  ∧ (∀ W, load_whitelist_data (Json (JDict pairs)) = Loaded W → W.*1 = lists.*1)
  ∧ (∀ R, load_whitelist_data (Json (JDict pairs)) = LoadedOther R → R.*1 = lists.*1)
  ∧ (∀ e, load_whitelist_data (Json (JDict pairs)) = LoadRaises e →
          e = TypeError
          ∧ ∃ uid l v, (uid, JList l) ∈ raw ∧ v ∈ l ∧ hashable v = false).
Proof.
  intros raw lists.
  pose proof (odict_of_items_keys pairs) as Hraw. fold raw in Hraw.
  assert (NoDup lists.*1) as Hlists by (by apply (filter_keys_NoDup raw (fun kv => is_list kv.2))).
  split; [done|].
  unfold load_whitelist_data. cbv zeta. fold raw.
  rewrite (odict_of_items_NoDup lists Hlists). unfold lists at 1.
  rewrite load_items_filter.
  split; [done|].
  destruct (load_items raw []) as [e|R] eqn:Hl.
  - split; [done|]. split; [done|]. intros e' [= <-]. by eapply load_items_raises.
  - pose proof (load_items_keys raw [] R Hl Hraw) as Hkeys. rewrite app_nil_l in Hkeys.
    destruct (str_sets R) as [W|] eqn:HW.
    + split; [|done]. intros W' [= <-]. by rewrite (str_sets_keys R W).
    + split; [done|]. split; [|done]. by intros R' [= <-].
Qed.

(** X11. [load_whitelist_data] on a JSON object reads the dict [json.load]
    makes of it (of a key written twice, the last value at the first place),
    and in it the entries whose value is a list and nothing else: dropping
    all the others changes nothing.  The record that is bound, whether its
    sets hold strings or not, has no user twice and has exactly the users
    whose value is a list, in the order of the file; and the only way to
    raise is [TypeError], for a list or dict found in one of those lists. *)
Theorem load_reads_lists_only (pairs : list (string * json)) :
  let raw := ODict.of_items pairs in
  let lists := filter (fun kv : string * json => is_list kv.2 = true) raw in
  load_whitelist_data (Json (JDict lists)) = load_whitelist_data (Json (JDict pairs))
  ∧ (∀ W, load_whitelist_data (Json (JDict pairs)) = Loaded W →
         NoDup W.*1 ∧ W.*1 = lists.*1)
  ∧ (∀ R, load_whitelist_data (Json (JDict pairs)) = LoadedOther R →
         NoDup R.*1 ∧ R.*1 = lists.*1)
  ∧ (∀ e, load_whitelist_data (Json (JDict pairs)) = LoadRaises e →
          e = TypeError
          ∧ ∃ uid l v, (uid, JList l) ∈ raw ∧ v ∈ l ∧ hashable v = false).
Proof.
  intros raw lists.
  destruct (load_object pairs) as (Hnd & Hfilter & HW & HR & He).
  split; [exact Hfilter|]. split; [|split; [|exact He]].
  - intros W Hload. rewrite (HW W Hload). by split.
  - intros R Hload. rewrite (HR R Hload). by split.
Qed.

Lemma load_reads_lists_only_witness :
  let pairs := [("10001", JList [JStr "Steve"]); ("note", JStr "x"); ("10002", JNull);
                ("10003", JList [JStr "Alex"; JStr "Alex"]); ("10001", JNum 5)] in
  load_whitelist_data (Json (JDict pairs)) = Loaded [("10003", {[ "Alex" ]})]
  ∧ load_whitelist_data (Json (JDict [("10003", JList [JStr "Alex"; JStr "Alex"])]))
    = load_whitelist_data (Json (JDict pairs)).
Proof.
  intros pairs. split; [by vm_compute|].
  exact (proj1 (load_reads_lists_only pairs)).
Defined.

(** X12. What [save_whitelist_data] writes: one key per user, in the order
    of the record, bound to the list of that user's names without
    repetition and in increasing order. *)
Theorem saved_lists_sorted (W : list (string * gset string)) :
  NoDup W.*1 →
  ∃ raw, save_whitelist_data W = Json (JDict raw)
         ∧ raw.*1 = W.*1
         ∧ Forall2 (fun '(uid, names) '(uid', v) =>
                      uid' = uid
                      ∧ ∃ l, v = JList (JStr <$> l) ∧ Sorted str_le l ∧ NoDup l
                             ∧ ∀ n, n ∈ l ↔ n ∈ names) W raw.
Proof.
  intros Hnd. eexists. unfold save_whitelist_data.
  rewrite odict_of_items_NoDup by (by rewrite saved_keys).
  split; [done|]. split; [apply saved_keys|].
  apply Forall2_fmap_r, Forall_Forall2_diag, Forall_forall.
  intros [uid names] _. split; [done|].
  exists (sorted names). split; [done|].
  split; [apply Sorted_merge_sort, _|]. split; [apply sorted_NoDup|].
  intros n. apply sorted_elem.
Qed.

Lemma saved_lists_sorted_witness :
  let W := [("10001", {[ "Steve"; "Alex" ]}); ("10002", ∅)] : list (string * gset string) in
  (∃ raw, save_whitelist_data W = Json (JDict raw) ∧ raw.*1 = ["10001"; "10002"])
  ∧ save_whitelist_data W
    = Json (JDict [("10001", JList [JStr "Alex"; JStr "Steve"]); ("10002", JList [])]).
Proof.
  intros W. split; [|by vm_compute].
  destruct (saved_lists_sorted W) as (raw & Hraw & Hkeys & _).
  - by apply (bool_decide_unpack _).
  - exists raw. split; [exact Hraw | exact Hkeys].
Defined.

(** * The [/whitelist] command *)

Example whitelist_args_examples :
  whitelist_args "/whitelist Steve" = Some "Steve"
  ∧ whitelist_args "  /whitelist   Steve  " = Some "Steve"
  ∧ whitelist_args "/whitelist　史蒂夫" = Some "史蒂夫"
  ∧ whitelist_args "/whitelist a b" = Some "a b"
  ∧ whitelist_args "/whitelist" = None
  ∧ whitelist_args "/whitelist   " = None
  ∧ whitelist_args "" = None.
Proof. repeat split; by vm_compute. Qed.

Section Setdefault.
Context {V : Type}.
Implicit Types (d : list (string * V)) (k : string) (v : V).

Lemma setdefault_get d k v :
  ODict.get k (ODict.setdefault k v d) = Some (default v (ODict.get k d)).
Proof.
  unfold ODict.setdefault. destruct (ODict.get k d) eqn:Hg; [done|].
  apply odict_get_set_eq.
Qed.

Lemma setdefault_get_ne d k k' v :
  k ≠ k' → ODict.get k' (ODict.setdefault k v d) = ODict.get k' d.
Proof.
  intros Hne. unfold ODict.setdefault. destruct (ODict.get k d); [done|].
  by apply odict_get_set_ne.
Qed.

Lemma setdefault_present d k v : is_Some (ODict.get k d) → ODict.setdefault k v d = d.
Proof. intros [x Hx]. unfold ODict.setdefault. by rewrite Hx. Qed.

Lemma setdefault_NoDup d k v : NoDup d.*1 → NoDup (ODict.setdefault k v d).*1.
Proof.
  intros Hnd. unfold ODict.setdefault. destruct (ODict.get k d); [done|].
  by apply odict_set_NoDup.
Qed.

End Setdefault.

Lemma size_add_fresh (used : gset string) (name : string) :
  name ∉ used → size (used ∪ {[ name ]}) = S (size used).
Proof.
  intros Hnin. rewrite size_union by set_solver. rewrite size_singleton. lia.
Qed.

(** The three ways [whitelist_begin] goes once the text has an argument. *)
Lemma whitelist_begin_cases (text : string) (user_id : Z) (name : string)
    (W : list (string * gset string)) :
  whitelist_args text = Some name →
  let uid := pretty user_id in
  let used := default ∅ (ODict.get uid W) in
  let W1 := ODict.setdefault uid ∅ W in
  ODict.get uid W1 = Some used
  ∧ whitelist_begin text user_id W
    = (W1,
       if decide (name ∈ used) then Finish (AlreadyApplied name)
       else if decide (WHITELIST_LIMIT ≤ size used)%nat
            then Finish (QuotaUsedUp WHITELIST_LIMIT (String.concat ", " (sorted used)))
            else CallServer name "minecraft:allowlist/add"
                   (JDict [("add", JList [JDict [("name", JStr name)]])])).
Proof.
  intros Hargs uid used W1. subst uid used W1. split; [apply setdefault_get|].
  unfold whitelist_begin. rewrite Hargs. cbn zeta.
  rewrite setdefault_get. cbn [default from_option id].
  by repeat case_decide.
Qed.

Lemma within_quota_setdefault (W : list (string * gset string)) (uid : string) :
  within_quota W → within_quota (ODict.setdefault uid ∅ W).
Proof.
  intros Hq uid' used'. destruct (decide (uid = uid')) as [<-|Hne].
  - rewrite setdefault_get. intros [= <-].
    destruct (ODict.get uid W) as [used|] eqn:Hg; cbn [default].
    + by apply (Hq uid).
    + rewrite size_empty. lia.
  - rewrite setdefault_get_ne by done. apply Hq.
Qed.

(** X13. One [/whitelist] command handled from start to end with no other
    handler in between keeps every user within [WHITELIST_LIMIT] names,
    whatever the text, the user and the answer of the server. *)
Theorem whitelist_quota_kept (text : string) (user_id : Z) (o : exn + json)
    (W : list (string * gset string)) (f : file) :
  within_quota W → within_quota (whitelist_handle text user_id o W f).1.1.
Proof.
  intros Hq. unfold whitelist_handle.
  destruct (whitelist_args text) as [name|] eqn:Hargs.
  - destruct (whitelist_begin_cases text user_id name W Hargs) as [Hget ->].
    pose proof (within_quota_setdefault W (pretty user_id) Hq) as Hq1.
    destruct (decide (name ∈ _)) as [Hin|Hnin]; [done|].
    destruct (decide (WHITELIST_LIMIT ≤ _)%nat) as [Hfull|Hroom]; [done|].
    unfold whitelist_end. destruct o as [e|v]; [done|]. rewrite Hget. cbn [fst].
    intros uid' used'. destruct (decide (pretty user_id = uid')) as [<-|Hne].
    + rewrite odict_get_set_eq. intros [= <-]. rewrite size_add_fresh by done. lia.
    + rewrite odict_get_set_ne by done. apply Hq1.
  - unfold whitelist_begin. by rewrite Hargs.
Qed.

Lemma whitelist_quota_kept_witness :
  let W := [("10001", {[ "Alex" ]})] : list (string * gset string) in
  within_quota (whitelist_handle "/whitelist Steve" 10001 (inr JNull) W NoFile).1.1
  ∧ (whitelist_handle "/whitelist Steve" 10001 (inr JNull) W NoFile).1.1
    = [("10001", {[ "Alex"; "Steve" ]})].
Proof.
  intros W. split; [|by vm_compute].
  apply whitelist_quota_kept. intros uid used. subst W. cbn [ODict.get].
  case_decide; [|done]. intros [= <-]. rewrite size_singleton. unfold WHITELIST_LIMIT. lia.
Defined.

(** X14. The quota is checked before the handler waits for the server and
    the name is recorded after: two commands of one user with one place
    left, for two new names, each started before the other has ended, both
    pass the check, and once both calls have returned the user has one name
    more than [WHITELIST_LIMIT]. *)
Theorem whitelist_quota_race (t1 t2 : string) (u : Z) (n1 n2 : string) (v1 v2 : json)
    (W : list (string * gset string)) (f : file) (used : gset string) :
  whitelist_args t1 = Some n1 → whitelist_args t2 = Some n2 → n1 ≠ n2 →
  ODict.get (pretty u) W = Some used → n1 ∉ used → n2 ∉ used →
  S (size used) = WHITELIST_LIMIT →
  let b1 := whitelist_begin t1 u W in
  let b2 := whitelist_begin t2 u b1.1 in
  let e1 := whitelist_end n1 u (inr v1) b2.1 f in
  let e2 := whitelist_end n2 u (inr v2) e1.1.1 e1.1.2 in
  (∃ m p, b1.2 = CallServer n1 m p) ∧ (∃ m p, b2.2 = CallServer n2 m p)
  ∧ e1.2 = Replied (Added n1) ∧ e2.2 = Replied (Added n2)
  ∧ ODict.get (pretty u) e2.1.1 = Some (used ∪ {[ n1 ]} ∪ {[ n2 ]})
  ∧ size (used ∪ {[ n1 ]} ∪ {[ n2 ]}) = S WHITELIST_LIMIT
  ∧ ¬ within_quota e2.1.1.
Proof.
  intros Ha1 Ha2 Hne Hget Hn1 Hn2 Hsize b1 b2 e1 e2.
  assert (ODict.setdefault (pretty u) ∅ W = W) as Hsd
    by (apply setdefault_present; by rewrite Hget).
  destruct (whitelist_begin_cases t1 u n1 W Ha1) as [_ Hb1].
  destruct (whitelist_begin_cases t2 u n2 W Ha2) as [_ Hb2].
  rewrite Hsd, Hget in Hb1, Hb2. cbn [default from_option id] in Hb1, Hb2.
  rewrite decide_False in Hb1 by done. rewrite decide_False in Hb2 by done.
  rewrite decide_False in Hb1 by lia. rewrite decide_False in Hb2 by lia.
  assert (b1.1 = W) as Hb11 by (subst b1; by rewrite Hb1).
  assert (b2.1 = W) as Hb21 by (subst b2; by rewrite Hb11, Hb2).
  assert (e1.1.1 = ODict.set (pretty u) (used ∪ {[ n1 ]}) W) as He1.
  { subst e1. rewrite Hb21. unfold whitelist_end. by rewrite Hget. }
  assert (e2.1.1 = ODict.set (pretty u) (used ∪ {[ n1 ]} ∪ {[ n2 ]}) e1.1.1) as He2.
  { subst e2. unfold whitelist_end at 1. rewrite He1 at 1 2.
    by rewrite odict_get_set_eq. }
  assert (size (used ∪ {[ n1 ]} ∪ {[ n2 ]}) = S WHITELIST_LIMIT) as Hover.
  { rewrite size_add_fresh by set_solver. rewrite size_add_fresh by done. lia. }
  split; [subst b1; rewrite Hb1; by eauto|].
  split; [subst b2; rewrite Hb11, Hb2; by eauto|].
  split; [done|]. split; [done|].
  split; [by rewrite He2, odict_get_set_eq|]. split; [exact Hover|].
  intros Hq. specialize (Hq (pretty u) _ ltac:(by rewrite He2, odict_get_set_eq)). lia.
Qed.

Lemma whitelist_quota_race_witness :
  let W := [("10001", {[ "Alex" ]})] : list (string * gset string) in
  let b1 := whitelist_begin "/whitelist Steve" 10001 W in
  let b2 := whitelist_begin "/whitelist Herobrine" 10001 b1.1 in
  let e1 := whitelist_end "Steve" 10001 (inr JNull) b2.1 NoFile in
  let e2 := whitelist_end "Herobrine" 10001 (inr JNull) e1.1.1 e1.1.2 in
  ODict.get "10001" e2.1.1 = Some ({[ "Alex" ]} ∪ {[ "Steve" ]} ∪ {[ "Herobrine" ]})
  ∧ ¬ within_quota e2.1.1.
Proof.
  intros W b1 b2 e1 e2.
  assert ("Steve" ∉ ({[ "Alex" ]} : gset string)) as Hn1 by (by apply (bool_decide_unpack _)).
  assert ("Herobrine" ∉ ({[ "Alex" ]} : gset string)) as Hn2
    by (by apply (bool_decide_unpack _)).
  destruct (whitelist_quota_race "/whitelist Steve" "/whitelist Herobrine" 10001
              "Steve" "Herobrine" JNull JNull W NoFile {[ "Alex" ]}
              ltac:(by vm_compute) ltac:(by vm_compute) ltac:(done) ltac:(by vm_compute)
              Hn1 Hn2 ltac:(by vm_compute))
    as (_ & _ & _ & _ & Hget & _ & Hover).
  split; [exact Hget | exact Hover].
Defined.

(** X15. A command that passes the checks and whose call returns records the
    name for that user, answers [Added], and rewrites the file from the new
    record, so that loading the file gives that record back; the record of a
    dict stays a dict. *)
Theorem whitelist_added (text : string) (u : Z) (v : json) (name : string)
    (W : list (string * gset string)) (f : file) :
  NoDup W.*1 → whitelist_args text = Some name →
  let used := default ∅ (ODict.get (pretty u) W) in
  name ∉ used → (size used < WHITELIST_LIMIT)%nat →
  ∃ W', whitelist_handle text u (inr v) W f
        = (W', save_whitelist_data W', Replied (Added name))
        ∧ ODict.get (pretty u) W' = Some (used ∪ {[ name ]})
        ∧ NoDup W'.*1
        ∧ load_whitelist_data (save_whitelist_data W') = Loaded W'.
Proof.
  intros Hnd Hargs used Hnin Hroom.
  destruct (whitelist_begin_cases text u name W Hargs) as [Hget Hb].
  rewrite decide_False in Hb by done. rewrite decide_False in Hb by (fold used; lia).
  assert (NoDup (ODict.set (pretty u) (used ∪ {[ name ]})
                   (ODict.setdefault (pretty u) ∅ W)).*1) as Hnd'.
  { by apply odict_set_NoDup, setdefault_NoDup. }
  eexists. unfold whitelist_handle. rewrite Hb. unfold whitelist_end. rewrite Hget.
  split; [reflexivity|]. split; [apply odict_get_set_eq|]. split; [exact Hnd'|].
  rewrite save_then_load by exact Hnd'. reflexivity.
Qed.

Lemma whitelist_added_witness :
  let W := [("10001", {[ "Alex" ]})] : list (string * gset string) in
  ∃ W', whitelist_handle "/whitelist Steve" 10001 (inr JNull) W NoFile
        = (W', save_whitelist_data W', Replied (Added "Steve"))
        ∧ load_whitelist_data (save_whitelist_data W') = Loaded W'.
Proof.
  intros W.
  assert ("Steve" ∉ default ∅ (ODict.get (pretty 10001) W)) as Hn
    by (by apply (bool_decide_unpack _)).
  destruct (whitelist_added "/whitelist Steve" 10001 JNull "Steve" W NoFile
              ltac:(by apply (bool_decide_unpack _)) ltac:(by vm_compute) Hn
              ltac:(vm_compute; lia))
    as (W' & Hh & _ & _ & Hl).
  exists W'. split; [exact Hh | exact Hl].
Defined.

(** X16. When the call to the server raises an exception that
    [except Exception] catches (a timeout, a remote error, a closed
    connection), the handler answers [AddFailed]: the name is not recorded,
    the file is not written, and the only trace is the (possibly new, empty)
    entry [setdefault] made for the user. *)
Theorem whitelist_add_failed (text : string) (u : Z) (e : exn) (name : string)
    (W : list (string * gset string)) (f : file) :
  whitelist_args text = Some name → caught e = true →
  let used := default ∅ (ODict.get (pretty u) W) in
  name ∉ used → (size used < WHITELIST_LIMIT)%nat →
  whitelist_handle text u (inl e) W f
  = (ODict.setdefault (pretty u) ∅ W, f, Replied (AddFailed e))
  ∧ ODict.get (pretty u) (ODict.setdefault (pretty u) ∅ W) = Some used.
Proof.
  intros Hargs Hc used Hnin Hroom.
  destruct (whitelist_begin_cases text u name W Hargs) as [Hget Hb].
  rewrite decide_False in Hb by done. rewrite decide_False in Hb by (fold used; lia).
  split; [|exact Hget].
  unfold whitelist_handle. rewrite Hb. unfold whitelist_end. by rewrite Hc.
Qed.

Lemma whitelist_add_failed_witness :
  whitelist_handle "/whitelist Steve" 10001 (inl TimeoutError) [] NoFile
  = ([("10001", ∅)], NoFile, Replied (AddFailed TimeoutError)).
Proof.
  assert ("Steve" ∉ default (∅ : gset string) (ODict.get (pretty 10001) [])) as Hn
    by (by apply (bool_decide_unpack _)).
  destruct (whitelist_add_failed "/whitelist Steve" 10001 TimeoutError "Steve" [] NoFile
              ltac:(by vm_compute) eq_refl Hn ltac:(vm_compute; lia)) as [Hh _].
  rewrite Hh. by vm_compute.
Defined.

(** X17. A name the user already has, or a user whose quota is used up: the
    handler answers at once, without calling the server, and neither the
    record nor the file changes. *)
Theorem whitelist_rejected (text : string) (u : Z) (o : exn + json) (name : string)
    (W : list (string * gset string)) (f : file) :
  whitelist_args text = Some name →
  let used := default ∅ (ODict.get (pretty u) W) in
  name ∈ used ∨ (WHITELIST_LIMIT ≤ size used)%nat →
  ∃ r, whitelist_begin text u W = (W, Finish r)
       ∧ whitelist_handle text u o W f = (W, f, Replied r)
       ∧ r = (if decide (name ∈ used) then AlreadyApplied name
              else QuotaUsedUp WHITELIST_LIMIT (String.concat ", " (sorted used))).
Proof.
  intros Hargs used Hrej.
  destruct (whitelist_begin_cases text u name W Hargs) as [Hget Hb].
  assert (is_Some (ODict.get (pretty u) W)) as Hsome.
  { destruct (ODict.get (pretty u) W) eqn:Hg; [by eauto|]. exfalso.
    subst used. cbn [default from_option id] in Hrej.
    destruct Hrej as [Hin|Hfull]; [set_solver|].
    rewrite size_empty in Hfull. unfold WHITELIST_LIMIT in Hfull. lia. }
  rewrite (setdefault_present W (pretty u) ∅ Hsome) in Hb.
  fold used in Hb.
  exists (if decide (name ∈ used) then AlreadyApplied name
          else QuotaUsedUp WHITELIST_LIMIT (String.concat ", " (sorted used))).
  assert (whitelist_begin text u W
          = (W, Finish (if decide (name ∈ used) then AlreadyApplied name
                        else QuotaUsedUp WHITELIST_LIMIT (String.concat ", " (sorted used)))))
    as Hb'.
  { rewrite Hb. destruct (decide (name ∈ used)) as [|Hnin]; [done|].
    destruct Hrej as [?|Hfull]; [done|]. by rewrite decide_True. }
  split; [exact Hb'|]. split; [|done].
  unfold whitelist_handle. by rewrite Hb'.
Qed.

Lemma whitelist_rejected_witness :
  let W := [("10001", {[ "Alex"; "Steve" ]})] : list (string * gset string) in
  whitelist_handle "/whitelist Herobrine" 10001 (inr JNull) W NoFile
  = (W, NoFile, Replied (QuotaUsedUp 2 "Alex, Steve"))
  ∧ whitelist_handle "/whitelist Alex" 10001 (inr JNull) W NoFile
    = (W, NoFile, Replied (AlreadyApplied "Alex")).
Proof.
  intros W. split.
  - destruct (whitelist_rejected "/whitelist Herobrine" 10001 (inr JNull) "Herobrine" W NoFile
                ltac:(by vm_compute) ltac:(right; vm_compute; lia)) as (r & _ & Hh & Hr).
    rewrite Hh, Hr. by vm_compute.
  - destruct (whitelist_rejected "/whitelist Alex" 10001 (inr JNull) "Alex" W NoFile
                ltac:(by vm_compute) ltac:(left; by apply (bool_decide_unpack _)))
      as (r & _ & Hh & Hr).
    rewrite Hh, Hr. by vm_compute.
Defined.

(** X18. A command of one user never touches what the record holds for
    another user, whatever the text and the answer of the server. *)
Theorem whitelist_other_users (text : string) (u u' : Z) (o : exn + json)
    (W : list (string * gset string)) (f : file) :
  u' ≠ u →
  ODict.get (pretty u') (whitelist_handle text u o W f).1.1 = ODict.get (pretty u') W.
Proof.
  intros Hne.
  assert (pretty u ≠ pretty u') as Hkey by (intros Heq; by apply (inj pretty) in Heq).
  unfold whitelist_handle.
  destruct (whitelist_args text) as [name|] eqn:Hargs.
  - destruct (whitelist_begin_cases text u name W Hargs) as [Hget ->].
    assert (ODict.get (pretty u') (ODict.setdefault (pretty u) ∅ W)
            = ODict.get (pretty u') W) as Hsd by (by apply setdefault_get_ne).
    repeat case_decide; try done.
    unfold whitelist_end. destruct o as [e|v]; [done|]. rewrite Hget. cbn [fst].
    by rewrite odict_get_set_ne.
  - unfold whitelist_begin. by rewrite Hargs.
Qed.

Lemma whitelist_other_users_witness :
  let W := [("10001", {[ "Alex" ]}); ("10002", {[ "Notch" ]})] : list (string * gset string) in
  ODict.get "10002" (whitelist_handle "/whitelist Steve" 10001 (inr JNull) W NoFile).1.1
  = Some {[ "Notch" ]}.
Proof.
  intros W.
  exact (whitelist_other_users "/whitelist Steve" 10001 10002 (inr JNull) W NoFile
           ltac:(done)).
Defined.

(** * Text *)

Lemma chars_head (a : Ascii.ascii) (r : string) :
  ∃ c cs, chars (String a r) = String a c :: cs.
Proof. cbn [chars]. destruct (chars r) as [|c cs]; [by eauto|]. destruct (starts_cont c); eauto. Qed.

Lemma chars_starts_cont (s : string) :
  match chars s with c :: _ => starts_cont c = starts_cont s | [] => s = "" end.
Proof.
  destruct s as [|a r]; [done|].
  destruct (chars_head a r) as (c & cs & ->). done.
Qed.

Lemma str_app_cons (a : Ascii.ascii) (c s : string) :
  String a c +:+ s = String a (c +:+ s).
Proof. reflexivity. Qed.

Lemma str_app_nil_l (s : string) : "" +:+ s = s.
Proof. reflexivity. Qed.

Lemma str_app_nil_r (c : string) : c +:+ "" = c.
Proof. induction c as [|a c IH]; [done|]. by rewrite str_app_cons, IH. Qed.

Lemma concat_cons (c : string) (cs : list string) :
  String.concat "" (c :: cs) = c +:+ String.concat "" cs.
Proof.
  destruct cs as [|c' cs]; cbn [String.concat].
  - by rewrite str_app_nil_r.
  - by rewrite str_app_nil_l.
Qed.

Lemma concat_chars (s : string) : String.concat "" (chars s) = s.
Proof.
  induction s as [|a r IH]; [done|]. cbn [chars].
  destruct (chars r) as [|c cs] eqn:Hc.
  - cbn [String.concat] in *. by rewrite <- IH.
  - rewrite concat_cons in IH. destruct (starts_cont c); rewrite !concat_cons.
    + by rewrite str_app_cons, IH.
    + by rewrite str_app_cons, str_app_nil_l, IH.
Qed.

Lemma chars_chunks_ok (s : string) : chunks_ok (chars s).
Proof.
  induction s as [|a r IH]; [done|]. cbn [chars].
  destruct (chars r) as [|c cs] eqn:Hc; [done|].
  destruct IH as [Hc1 Hcs]. destruct (starts_cont c) eqn:Hsc.
  - split; [|done]. destruct c as [|b c']; [done|]. cbn in *. by rewrite Hsc, Hc1.
  - split; [done|]. by constructor.
Qed.

(** Gluing a character in front of text that does not start inside one. *)
Lemma chars_chunk_app (c s : string) :
  chunk_ok c → starts_cont s = false → chars (c +:+ s) = c :: chars s.
Proof.
  destruct c as [|a r]; [done|]. cbn [chunk_ok]. revert a.
  induction r as [|b r IH]; intros a Hr Hs.
  - rewrite str_app_cons, str_app_nil_l. cbn [chars].
    pose proof (chars_starts_cont s) as Hh.
    destruct (chars s) as [|c' cs]; [done|]. by rewrite Hh, Hs.
  - cbn in Hr. apply andb_prop in Hr as [Hb Hr].
    rewrite str_app_cons. cbn [chars]. rewrite (IH b Hr Hs). cbn [starts_cont].
    by rewrite Hb.
Qed.

Lemma concat_chars_one (c : string) : chunk_ok c → chars c = [c].
Proof.
  intros Hc. rewrite <- (str_app_nil_r c) at 1. by rewrite chars_chunk_app.
Qed.

Lemma concat_starts_cont (cs : list string) :
  Forall (fun c => chunk_ok c ∧ starts_cont c = false) cs →
  starts_cont (String.concat "" cs) = false.
Proof.
  intros Hcs. destruct Hcs as [|c cs [Hc Hs] _]; [done|].
  rewrite concat_cons. destruct c; [done|]. by rewrite str_app_cons.
Qed.

Lemma chars_concat (cs : list string) : chunks_ok cs → chars (String.concat "" cs) = cs.
Proof.
  destruct cs as [|c cs]; [done|]. intros [Hc Hcs]. revert c Hc.
  induction Hcs as [|c' cs [Hc' Hs'] Hcs IH]; intros c Hc.
  - rewrite concat_cons. cbn [String.concat]. rewrite str_app_nil_r. by apply concat_chars_one.
  - rewrite concat_cons. rewrite chars_chunk_app; [by rewrite IH|done|].
    apply concat_starts_cont. by constructor.
Qed.

Section DropWhile.
Context {A : Type} (p : A → bool).
Implicit Types l : list A.

Lemma drop_while_suffix l : ∃ pre, l = pre ++ drop_while p l ∧ Forall (fun x => p x = true) pre.
Proof.
  induction l as [|x l (pre & Hl & Hpre)]; [by exists []|]. cbn.
  destruct (p x) eqn:Hx.
  - exists (x :: pre). split; [cbn; by f_equal | by constructor].
  - by exists [].
Qed.

Lemma drop_while_head l x l' : drop_while p l = x :: l' → p x = false.
Proof.
  induction l as [|y l IH]; [done|]. cbn. destruct (p y) eqn:Hy; [done|].
  by intros [= <- <-].
Qed.

Lemma drop_while_id l : match l with x :: _ => p x = false | [] => True end →
                        drop_while p l = l.
Proof. destruct l as [|x l]; [done|]. cbn. by intros ->. Qed.

Lemma drop_while_nil l : drop_while p l = [] ↔ Forall (fun x => p x = true) l.
Proof.
  induction l as [|x l IH]; cbn; [by split|]. destruct (p x) eqn:Hx.
  - rewrite IH. split; [by constructor | by inversion 1].
  - split; [done|]. inversion 1; congruence.
Qed.

End DropWhile.

Lemma chunks_ok_suffix (pre cs : list string) : chunks_ok (pre ++ cs) → chunks_ok cs.
Proof.
  destruct pre as [|c pre]; [done|]. cbn. intros [_ Hall].
  apply Forall_app in Hall as [_ Hcs]. destruct Hcs as [|c' cs [Hc' _] Hcs]; [done|].
  by split.
Qed.

Lemma chunks_ok_prefix (cs post : list string) : chunks_ok (cs ++ post) → chunks_ok cs.
Proof.
  destruct cs as [|c cs]; [done|]. cbn. intros [Hc Hall].
  apply Forall_app in Hall as [Hcs _]. by split.
Qed.

Lemma chunks_ok_drop_while (p : string → bool) (cs : list string) :
  chunks_ok cs → chunks_ok (drop_while p cs).
Proof.
  intros Hok. destruct (drop_while_suffix p cs) as (pre & Heq & _).
  rewrite Heq in Hok. by eapply chunks_ok_suffix.
Qed.

(** [strip_chars] cuts a run out of the middle: white space before, white
    space after. *)
Lemma strip_chars_middle (cs : list string) :
  ∃ pre post, cs = pre ++ strip_chars cs ++ post
              ∧ Forall (fun c => isspace c = true) pre
              ∧ Forall (fun c => isspace c = true) post.
Proof.
  unfold strip_chars.
  destruct (drop_while_suffix isspace cs) as (pre & Hcs & Hpre).
  destruct (drop_while_suffix isspace (reverse (drop_while isspace cs)))
    as (post & Hrev & Hpost).
  exists pre, (reverse post). split; [|split; [done | by apply Forall_reverse]].
  rewrite <- reverse_app, <- Hrev, reverse_involutive. done.
Qed.

Lemma chunks_ok_strip (cs : list string) : chunks_ok cs → chunks_ok (strip_chars cs).
Proof.
  intros Hok. destruct (strip_chars_middle cs) as (pre & post & Heq & _).
  rewrite Heq in Hok. eapply chunks_ok_prefix, chunks_ok_suffix, Hok.
Qed.

Lemma strip_chars_ends (cs : list string) :
  match strip_chars cs with c :: _ => isspace c = false | [] => True end
  ∧ match reverse (strip_chars cs) with c :: _ => isspace c = false | [] => True end.
Proof.
  unfold strip_chars. rewrite reverse_involutive. split.
  - set (l1 := drop_while isspace cs).
    destruct (drop_while_suffix isspace (reverse l1)) as (post & Hrev & _).
    assert (l1 = reverse (drop_while isspace (reverse l1)) ++ reverse post) as Hl1.
    { by rewrite <- reverse_app, <- Hrev, reverse_involutive. }
    destruct (reverse (drop_while isspace (reverse l1))) as [|c r] eqn:Hr; [done|].
    apply (drop_while_head isspace cs c (r ++ reverse post)). exact Hl1.
  - destruct (drop_while isspace (reverse (drop_while isspace cs))) as [|c r] eqn:Hd; [done|].
    by eapply drop_while_head.
Qed.

Lemma strip_chars_idem (cs : list string) : strip_chars (strip_chars cs) = strip_chars cs.
Proof.
  destruct (strip_chars_ends cs) as [Hhead Hlast].
  unfold strip_chars at 1.
  rewrite (drop_while_id isspace (strip_chars cs)) by done.
  rewrite (drop_while_id isspace (reverse (strip_chars cs))) by done.
  apply reverse_involutive.
Qed.

Lemma chars_strip (s : string) : chars (strip s) = strip_chars (chars s).
Proof. unfold strip. apply chars_concat, chunks_ok_strip, chars_chunks_ok. Qed.

Lemma strip_strip (s : string) : strip (strip s) = strip s.
Proof. unfold strip at 1. by rewrite chars_strip, strip_chars_idem. Qed.

(** What [strip] returns neither starts nor ends with a white-space
    character, so that stripping again changes nothing. *)
Lemma strip_result (s : string) :
  strip (strip s) = strip s
  ∧ match chars (strip s) with c :: _ => isspace c = false | [] => True end
  ∧ match reverse (chars (strip s)) with c :: _ => isspace c = false | [] => True end.
Proof.
  split; [apply strip_strip|]. rewrite chars_strip. apply strip_chars_ends.
Qed.

Lemma concat_nonempty (c : string) (cs : list string) :
  chunk_ok c → String.concat "" (c :: cs) ≠ "".
Proof. intros Hc. rewrite concat_cons. destruct c; [done|]. by rewrite str_app_cons. Qed.

(** The second part of [split(maxsplit=1)], when there is one. *)
Lemma split1_second (s w arg : string) :
  split1 s = [w; arg] →
  ∃ c rest, arg = String.concat "" (c :: rest) ∧ isspace c = false
            ∧ chunks_ok (c :: rest).
Proof.
  unfold split1. pose proof (chunks_ok_drop_while isspace (chars s) (chars_chunks_ok s)) as Hok.
  destruct (drop_while isspace (chars s)) as [|c0 cs0] eqn:H0; [done|].
  set (l1 := drop_while (fun c => negb (isspace c)) (c0 :: cs0)) in *.
  pose proof (chunks_ok_drop_while isspace l1
                (chunks_ok_drop_while _ (c0 :: cs0) Hok)) as Hok2.
  destruct (drop_while isspace l1) as [|c rest] eqn:H2; [done|].
  intros [= _ <-]. exists c, rest. split; [done|]. split; [|done].
  by eapply drop_while_head.
Qed.

Lemma strip_nonempty (c : string) (rest : list string) :
  chunks_ok (c :: rest) → isspace c = false → strip (String.concat "" (c :: rest)) ≠ "".
Proof.
  intros Hok Hc. unfold strip. rewrite chars_concat by done.
  pose proof (chunks_ok_strip (c :: rest) Hok) as Hok'.
  destruct (strip_chars (c :: rest)) as [|c' cs'] eqn:Hs.
  - exfalso. destruct (strip_chars_middle (c :: rest)) as (pre & post & Heq & Hpre & Hpost).
    rewrite Hs in Heq. cbn [app] in Heq.
    assert (Forall (fun c => isspace c = true) (c :: rest)) as Hall.
    { rewrite Heq. by apply Forall_app. }
    inversion Hall; congruence.
  - apply concat_nonempty. by destruct Hok'.
Qed.

(** X19. In the [/whitelist] handler the second test, [if not name], never
    fires: whenever the text splits in two, the second part stripped is not
    empty.  The name the handler goes on with is that part; it is not empty
    and has no white space at either end. *)
Theorem whitelist_args_name (plaintext : string) :
  whitelist_args plaintext
  = match split1 (strip plaintext) with
    | [_; arg] => Some (strip arg)
    | _ => None
    end
  ∧ ∀ name, whitelist_args plaintext = Some name → name ≠ "" ∧ strip name = name.
Proof.
  unfold whitelist_args.
  destruct (split1 (strip plaintext)) as [|w [|arg [|x l]]] eqn:Hsplit; try done.
  destruct (split1_second _ _ _ Hsplit) as (c & rest & -> & Hc & Hok).
  pose proof (strip_nonempty c rest Hok Hc) as Hne.
  rewrite decide_False by done. split; [done|].
  intros name [= <-]. split; [done|]. apply strip_strip.
Qed.

Lemma whitelist_args_name_witness :
  whitelist_args "  /whitelist   Steve  " = Some "Steve"
  ∧ "Steve" ≠ "" ∧ strip "Steve" = "Steve".
Proof.
  split; [by vm_compute|].
  exact (proj2 (whitelist_args_name "  /whitelist   Steve  ") "Steve" ltac:(by vm_compute)).
Defined.

(** * The [/players] command *)

Lemma all_str_strings (l : list string) : all_str (JStr <$> l) = Some l.
Proof.
  induction l as [|s l IH]; [done|]. rewrite fmap_cons. cbn [all_str]. by rewrite IH.
Qed.

Lemma all_str_None (items : list json) :
  Exists (fun v => match v with JStr _ => False | _ => True end) items → all_str items = None.
Proof.
  induction 1 as [v items Hv|v items _ IH]; cbn [all_str].
  - by destruct v.
  - destruct v; try done. by rewrite IH.
Qed.

Lemma player_names_named (ps : list json) :
  Forall (fun p => nameless p = false) ps →
  player_names (JList ps) = inr (JStr <$> named_players ps).
Proof.
  intros Hall. unfold player_names.
  destruct ps as [|p ps]; [done|]. cbn [truthy]. f_equal.
  induction Hall as [|q qs Hq Hqs IH]; [done|].
  cbn [omap list_omap named_players]. unfold nameless in Hq.
  destruct q; try apply IH.
  destruct (PyDict.get "name" d) as [[]|]; try done.
  cbn [default from_option id]. rewrite fmap_cons. f_equal. apply IH.
Qed.

(** X20. The reply to [/players] when the server returns a list in which
    every player object has a string ["name"]: the number announced is the
    number of player objects (members that are not objects are not
    counted), followed by their names in the order received, joined by
    [", "]. *)
Theorem players_listing (ps : list json) :
  Forall (fun p => nameless p = false) ps → named_players ps ≠ [] →
  players_handle (inr (JList ps))
  = Listing (("在线玩家 (" +:+ pretty (length (named_players ps)) +:+ "): ")
             +:+ String.concat ", " (named_players ps)).
Proof.
  intros Hall Hne. unfold players_handle. rewrite player_names_named by done.
  rewrite length_fmap.
  destruct (named_players ps) as [|n ns] eqn:Hn; [done|].
  rewrite fmap_cons. unfold str_join. cbn [all_str]. by rewrite all_str_strings.
Qed.

Lemma players_listing_witness :
  players_handle (inr (JList [JDict [("name", JStr "Alex"); ("id", JStr "x")]; JNum 3;
                              JDict [("name", JStr "Steve")]]))
  = Listing "在线玩家 (2): Alex, Steve".
Proof.
  rewrite players_listing; [by vm_compute| |by vm_compute].
  repeat constructor.
Defined.

(** X21. One player object without a string ["name"] is enough for the whole
    query to fail: [", ".join] raises [TypeError], which the handler reports
    as a failed query, the other players not being listed. *)
Theorem players_nameless_fails (ps : list json) :
  Exists (fun p => nameless p = true) ps →
  players_handle (inr (JList ps)) = QueryFailed TypeError.
Proof.
  intros Hex. unfold players_handle, player_names.
  assert (truthy (JList ps) = true) as -> by (by destruct Hex).
  set (names := omap _ ps).
  assert (Exists (fun v => match v with JStr _ => False | _ => True end) names) as Hbad.
  { subst names. induction Hex as [p ps Hp|p ps _ IH].
    - unfold nameless in Hp. destruct p; try done. cbn [omap list_omap].
      apply Exists_cons_hd. by destruct (PyDict.get "name" d) as [[]|].
    - cbn [omap list_omap]. destruct p; try done. by apply Exists_cons_tl. }
  unfold str_join. rewrite (all_str_None names Hbad).
  by destruct Hbad.
Qed.

Lemma players_nameless_fails_witness :
  players_handle (inr (JList [JDict [("name", JStr "Alex")]; JDict [("uuid", JStr "u")]]))
  = QueryFailed TypeError.
Proof.
  apply players_nameless_fails. apply Exists_cons_tl, Exists_cons_hd. reflexivity.
Defined.

(** X22. Nobody on line: when the server returns [None], an empty list, a
    list without player objects, or a dict or a string (iterated, they yield
    no object), the reply is the listing with count 0. *)
Theorem players_nobody (players : json) :
  match players with
  | JNull | JDict _ | JStr _ => True
  | JList ps => Forall (fun p => match p with JDict _ => False | _ => True end) ps
  | JBool b => b = false
  | JNum n => n = 0
  end →
  players_handle (inr players) = Listing "在线玩家 (0): 无".
Proof.
  intros Hshape. unfold players_handle, player_names.
  destruct players as [|b|n|s|ps|d]; cbn [truthy].
  - done.
  - by subst b.
  - by subst n.
  - by destruct (negb (String.eqb s "")).
  - assert (omap (fun p => match p with
                           | JDict d => Some (default JNull (PyDict.get "name" d))
                           | _ => None
                           end) ps = []) as Hnil.
    { induction Hshape as [|p ps Hp _ IH]; [done|]. cbn [omap list_omap]. by destruct p. }
    destruct ps; [done|]. by rewrite Hnil.
  - by destruct d.
Qed.

Lemma players_nobody_witness :
  players_handle (inr (JList [JStr "Alex"; JNull])) = Listing "在线玩家 (0): 无".
Proof. apply players_nobody. repeat constructor. Defined.

(** * Broadcasting *)

Lemma broadcast_groups {M : Type} (bot : nat) (groups : list Z) (raises : nat → Z → bool)
    (message : M) (sent : list (nat * Z * M)) :
  foldl (fun sent gid => if raises bot gid then sent else sent ++ [(bot, gid, message)])
        sent groups
  = sent ++ ((fun gid => (bot, gid, message))
               <$> filter (fun gid => raises bot gid = false) groups).
Proof.
  revert sent. induction groups as [|gid groups IH]; intros sent.
  - by rewrite app_nil_r.
  - cbn [foldl]. rewrite IH. destruct (raises bot gid) eqn:Hr.
    + by rewrite filter_cons_False by congruence.
    + rewrite filter_cons_True by done. rewrite fmap_cons, <- app_assoc. done.
Qed.

Lemma broadcast_bots {M : Type} (bots : list nat) (groups : list Z)
    (raises : nat → Z → bool) (message : M) (sent : list (nat * Z * M)) :
  foldl (fun sent bot =>
           foldl (fun sent gid => if raises bot gid then sent
                                  else sent ++ [(bot, gid, message)]) sent groups)
        sent bots
  = sent ++ ((fun bg : nat * Z => (bg.1, bg.2, message)) <$> reached bots groups raises).
Proof.
  revert sent. induction bots as [|bot bots IH]; intros sent.
  - by rewrite app_nil_r.
  - cbn [foldl]. rewrite IH, broadcast_groups. unfold reached. cbn [mbind list_bind].
    rewrite fmap_app, <- app_assoc. do 2 f_equal.
    induction (filter _ groups) as [|g gs IHg]; [done|].
    cbn [mbind list_bind]. rewrite !fmap_cons. cbn. by rewrite IHg.
Qed.

Lemma broadcast_reaches_all_aux {M : Type} (bots : list nat) (groups : list Z)
    (raises : nat → Z → bool) (message : M) (sent : list (nat * Z * M)) :
  _broadcast_to_allowed bots groups raises message sent
  = sent ++ ((fun bg : nat * Z => (bg.1, bg.2, message)) <$> reached bots groups raises)
  ∧ (∀ bot gid, (bot, gid) ∈ reached bots groups raises
                ↔ bot ∈ bots ∧ gid ∈ groups ∧ raises bot gid = false).
Proof.
  split.
  - unfold _broadcast_to_allowed. destruct groups as [|g groups]; [|apply broadcast_bots].
    assert (reached bots [] raises = []) as ->.
    { unfold reached. induction bots as [|b bots IH]; [done|].
      cbn [mbind list_bind]. by rewrite IH. }
    by rewrite app_nil_r.
  - intros bot gid. unfold reached. rewrite list_elem_of_bind. split.
    + intros (b & Hin & Hb). apply list_elem_of_bind in Hin as (g & Hin & Hg).
      apply list_elem_of_singleton in Hin as [= -> ->].
      apply list_elem_of_filter in Hg as [Hr Hg]. done.
    + intros (Hb & Hg & Hr). exists bot. split; [|done].
      apply list_elem_of_bind. exists gid. split; [by apply list_elem_of_singleton|].
      by apply list_elem_of_filter.
Qed.

(** X23. [_broadcast_to_allowed] sends the message once to every allowed
    group of every bot, bots first and groups in order, except where
    [send_group_msg] raises: a failure for one group neither stops the
    others nor leaves the function. *)
Theorem broadcast_reaches_all {M : Type} (bots : list nat) (groups : list Z)
    (raises : nat → Z → bool) (message : M) (sent : list (nat * Z * M)) :
  _broadcast_to_allowed bots groups raises message sent
  = sent ++ ((fun bg : nat * Z => (bg.1, bg.2, message)) <$> reached bots groups raises)
  ∧ (∀ bot gid, (bot, gid) ∈ reached bots groups raises
                ↔ bot ∈ bots ∧ gid ∈ groups ∧ raises bot gid = false)
  ∧ (groups = [] → _broadcast_to_allowed bots groups raises message sent = sent).
Proof.
  destruct (broadcast_reaches_all_aux bots groups raises message sent) as [Heq Hiff].
  split; [exact Heq|]. split; [exact Hiff|]. by intros ->.
Qed.

Lemma extract_names_nonempty (params : json) : _extract_names params ≠ [].
Proof.
  unfold _extract_names.
  match goal with |- context [match ?names with [] => [JStr "Unknown"] | _ :: _ => _ end] =>
    destruct names eqn:Hn end; done.
Qed.

Lemma announce_fold (mk : json → announcement) (bots : list nat) (groups : list Z)
    (raises : nat → Z → bool) (names : list json) (sent : list (nat * Z * announcement)) :
  foldl (fun sent name => _broadcast_to_allowed bots groups raises (mk name) sent) sent names
  = sent ++ (name ← names;
             (fun bg : nat * Z => (bg.1, bg.2, mk name)) <$> reached bots groups raises).
Proof.
  revert sent. induction names as [|name names IH]; intros sent.
  - by rewrite app_nil_r.
  - cbn [foldl]. rewrite IH.
    rewrite (proj1 (broadcast_reaches_all_aux bots groups raises (mk name) sent)).
    cbn [mbind list_bind]. by rewrite <- app_assoc.
Qed.

(** X24. A join or leave notification is announced name by name, each name
    going to every group that can be reached; and since [_extract_names]
    never returns an empty list, every reachable group gets at least one
    announcement, be it for the placeholder ["Unknown"]. *)
Theorem notification_announced (mk : json → announcement) (bots : list nat)
    (groups : list Z) (raises : nat → Z → bool) (params : json)
    (sent : list (nat * Z * announcement)) :
  announce mk bots groups raises params sent
  = sent ++ (name ← _extract_names params;
             (fun bg : nat * Z => (bg.1, bg.2, mk name)) <$> reached bots groups raises)
  ∧ ∀ bot gid, (bot, gid) ∈ reached bots groups raises →
               ∃ name, name ∈ _extract_names params
                       ∧ (bot, gid, mk name) ∈ announce mk bots groups raises params sent.
Proof.
  assert (announce mk bots groups raises params sent
          = sent ++ (name ← _extract_names params;
                     (fun bg : nat * Z => (bg.1, bg.2, mk name))
                       <$> reached bots groups raises)) as Heq
    by apply announce_fold.
  split; [exact Heq|]. intros bot gid Hin.
  destruct (_extract_names params) as [|name names] eqn:Hn;
    [by destruct (extract_names_nonempty params)|].
  exists name. split; [by left|]. rewrite Heq.
  apply elem_of_app. right. cbn [mbind list_bind]. apply elem_of_app. left.
  apply list_elem_of_fmap. by exists (bot, gid).
Qed.

(** * Across a restart *)

(** X25. A record of sets of strings that [load_whitelist_data] has bound
    (from no file, or from a JSON object whose lists hold strings only)
    has no user twice, and survives a shutdown and the next startup: saving
    it and loading the file again binds the same record. *)
Theorem whitelist_survives_restart (f : file) (W : list (string * gset string)) :
  load_whitelist_data f = Loaded W →
  NoDup W.*1 ∧ load_whitelist_data (save_whitelist_data W) = Loaded W.
Proof.
  intros Hload.
  assert (NoDup W.*1) as Hnd; [|by split; [|apply save_then_load]].
  destruct f as [| |v]; cbn [load_whitelist_data] in Hload.
  - injection Hload as <-. constructor.
  - done.
  - destruct v as [| | | | |pairs]; try done.
    destruct (load_object pairs) as (Hnd & _ & HW & _).
    by rewrite (HW W Hload).
Qed.

Lemma whitelist_survives_restart_witness :
  let f := Json (JDict [("10001", JList [JStr "Steve"; JStr "Alex"; JStr "Steve"]);
                        ("10002", JNum 7); ("10001", JList [JStr "Alex"; JStr "Steve"])]) in
  load_whitelist_data f = Loaded [("10001", {[ "Alex"; "Steve" ]})]
  ∧ load_whitelist_data (save_whitelist_data [("10001", {[ "Alex"; "Steve" ]})])
    = Loaded [("10001", {[ "Alex"; "Steve" ]})].
Proof.
  intros f.
  assert (load_whitelist_data f = Loaded [("10001", {[ "Alex"; "Steve" ]})]) as Hload
    by (by vm_compute).
  split; [exact Hload|].
  exact (proj2 (whitelist_survives_restart f [("10001", {[ "Alex"; "Steve" ]})] Hload)).
Defined.
